(** * Plugify: the plugin registry and its hook dispatchers

    A shallow embedding of [src/index.ts] (the single-class [PluginSystem])
    and of [src/core] / [src/systems] (the [Core] / [ExecutionCore] /
    [SyncPluginSystem] / [AsyncPluginSystem] / hybrid [PluginSystem] class
    family), with the properties of the registry, the hook resolver and the
    four dispatch strategies.

    Modelling conventions.
    - A JavaScript value is a [Value].  An object is the finite map of the
      properties that [in] and [[]] can see on it; members inherited from
      [Object.prototype] or [Promise.prototype] are not part of the model.
    - A hook implementation is a function from the forwarded argument list
      (an opaque type [Args]: the dispatchers never look inside it) to an
      [Outcome]: it returns a value or throws one.  That a hook ran is
      recorded as a [Called] event, which stands for its side effects.
    - A promise is determined by what the dispatchers can observe of it: the
      logical time at which it settles, and whether it fulfils or rejects
      with which value.  Promises that never settle are outside the model.
    - An object that is not a promise and has a callable [then] is a
      thenable, [VThenable]: [instanceof Promise] does not hold of it, and
      [await] and the resolution of a promise follow it as they follow a
      promise.  It is determined by when and with what its [then] calls
      back.  The other values stand for values without a callable [then].
    - A line of the console is an [Event].  The warning about a promise
      under a synchronous strategy ends in an advice that differs from
      method to method; the event keeps it.
    - Every array that [getPluginsWithHook] hands out carries the identity
      given to it when it was allocated, so that [===] on two results is
      equality of identities.
    - The registry methods run in a state monad with exceptions: [Abrupt]
      is a JavaScript exception leaving the method.  The object is the
      state that is threaded through, so that a method that returns [this]
      returns nothing in the model.
    - A hook does not call back into the registry, and no other call on the
      object runs while an asynchronous method is suspended.
    - A priority is an integer, and the name of a plugin a string, as
      [src/types.ts] declares them. *)

From stdpp Require Import gmap strings list fin_maps sorting.

Local Open Scope string_scope.
Local Open Scope Z_scope.
Local Open Scope list_scope.

Section Plugify.

Context {Args : Type}.

(** ** JavaScript values *)

Local Unset Elimination Schemes.

Inductive Value : Type :=
  | VUndefined
  | VNull
  | VBool (b : bool)
  | VNum (n : Z)
  | VStr (s : string)
  | VObj (fields : gmap string Value)
  | VFun (body : Args -> Outcome)
  | VPromise (delay : nat) (fulfils : bool) (payload : Value)
  | VThenable (delay : nat) (fulfils : bool) (payload : Value)

(** What calling a function does: a normal return or a throw. *)
with Outcome : Type :=
  | Returns (v : Value)
  | Throws (e : Value).

Local Set Elimination Schemes.

(** [typeof v] *)
Definition typeof (v : Value) : string :=
  match v with
  | VUndefined => "undefined"
  | VNull => "object"
  | VBool _ => "boolean"
  | VNum _ => "number"
  | VStr _ => "string"
  | VObj _ => "object"
  | VFun _ => "function"
  | VPromise _ _ _ => "object"
  | VThenable _ _ _ => "object"
  end.

(** [typeof v === 'function'] *)
Definition is_function (v : Value) : bool := String.eqb (typeof v) "function".

(** The truthiness used by [&&], [||] and [filter(Boolean)]. *)
Definition truthy (v : Value) : bool :=
  match v with
  | VUndefined | VNull => false
  | VBool b => b
  | VNum n => negb (n =? 0)
  | VStr s => negb (String.eqb s EmptyString)
  | VObj _ | VFun _ | VPromise _ _ _ | VThenable _ _ _ => true
  end.

(** [v !== null && v !== undefined] *)
Definition present (v : Value) : bool :=
  match v with
  | VUndefined | VNull => false
  | _ => true
  end.

(** [v instanceof Promise] *)
Definition instanceof_Promise (v : Value) : bool :=
  match v with
  | VPromise _ _ _ => true
  | _ => false
  end.

(** [k in v], for [v] an object. *)
Definition js_in (k : string) (v : Value) : bool :=
  match v with
  | VObj fields => bool_decide (is_Some (fields !! k))
  | _ => false
  end.

(** [v?.[k]]: [undefined] on a nullish [v], the property otherwise. *)
Definition opt_index (v : Value) (k : string) : Value :=
  match v with
  | VObj fields => default VUndefined (fields !! k)
  | _ => VUndefined
  end.

(** [a || b] *)
Definition js_or (a b : Value) : Value := if truthy a then a else b.

(** ** Plugins ([src/types.ts]) *)

(** [PluginBase & PluginHooks]: [name], the optional [priority] and [hooks],
    and the remaining direct attributes, keyed by hook name. *)
Record Plugin : Type := mkPlugin {
  name : string;
  priority : option Z;
  hooks : option Value;
  attrs : gmap string Value
}.

(** [k in plugin] *)
Definition plugin_has (p : Plugin) (k : string) : bool :=
  if String.eqb k "name" then true
  else if String.eqb k "priority" then bool_decide (is_Some (priority p))
  else if String.eqb k "hooks" then bool_decide (is_Some (hooks p))
  else bool_decide (is_Some (attrs p !! k)).

(** [plugin[k]] *)
Definition plugin_get (p : Plugin) (k : string) : Value :=
  if String.eqb k "name" then VStr (name p)
  else if String.eqb k "priority" then from_option VNum VUndefined (priority p)
  else if String.eqb k "hooks" then default VUndefined (hooks p)
  else default VUndefined (attrs p !! k).

(** [plugin.priority || 0] *)
Definition priority_or_0 (p : Plugin) : Z :=
  match priority p with
  | Some n => if n =? 0 then 0 else n
  | None => 0
  end.

(** [PluginFunction]: a factory is called once, with no argument. *)
Inductive FactoryResult : Type :=
  | FPlugin (p : Plugin)
  | FArray (ps : list Plugin)
  | FThrows (e : Value).

(** [PluginInput] *)
Inductive PluginInput : Type :=
  | InPlugin (p : Plugin)
  | InFactory (f : unit -> FactoryResult)
  | InArray (ps : list Plugin).

(** ** The console and the registry state *)

(** The last sentence of the warning about a promise under a synchronous
    strategy. *)
Inductive Advice : Type :=
  | UseExecAsync
      (* Use execAsync instead. *)
  | UseExecAllAsync
      (* Use execAllAsync instead. *)
  | UseAsyncPluginSystem
      (* Use AsyncPluginSystem instead. *)
  | UseExecAsyncOrExecAllAsync.
      (* Use execAsync/execAllAsync instead. *)

Inductive Event : Type :=
  | WarnDuplicate (plugin : string)
      (* console.warn: Plugin "..." already exists. Skipping duplicate. *)
  | WarnPromise (plugin hook : string) (advice : Advice)
      (* console.warn: Plugin "..." hook "..." returned Promise in sync
         execution. <advice> *)
  | ErrorFailed (plugin hook : string) (error : Value)
      (* console.error: Plugin "..." hook "..." failed: error *)
  | Called (plugin hook : string).
      (* the hook function of the plugin was invoked *)

(** An array handed out by the resolver: its identity, its elements and
    whether it went through [Object.freeze]. *)
Record PluginArray : Type := mkArray {
  arr_id : nat;
  arr_items : list Plugin;
  arr_frozen : bool
}.

(** The fields of the class, the console and the allocator. *)
Record State : Type := mkState {
  plugins : list Plugin;
  hookCache : gmap string PluginArray;
  sortedPlugins : list Plugin;
  isDirty : bool;
  console : list Event;
  next_id : nat
}.

(** ** The monad of the methods *)

Inductive Completion (A : Type) : Type :=
  | Normal (a : A) (s : State)
  | Abrupt (e : Value) (s : State).
Arguments Normal {A} a s.
Arguments Abrupt {A} e s.

Definition M (A : Type) : Type := State -> Completion A.

Definition ret {A} (a : A) : M A := fun s => Normal a s.

Definition bind {A B} (m : M A) (k : A -> M B) : M B :=
  fun s =>
    match m s with
    | Normal a s' => k a s'
    | Abrupt e s' => Abrupt e s'
    end.

Definition throw {A} (e : Value) : M A := fun s => Abrupt e s.

(** [try { m } catch (error) { h error }] *)
Definition try_catch {A} (m : M A) (h : Value -> M A) : M A :=
  fun s =>
    match m s with
    | Normal a s' => Normal a s'
    | Abrupt e s' => h e s'
    end.

Definition get : M State := fun s => Normal s s.
Definition put (s : State) : M unit := fun _ => Normal tt s.

(** The state in which a method leaves the object, however it completes. *)
Definition final_state {A} (c : Completion A) : State :=
  match c with
  | Normal _ s => s
  | Abrupt _ s => s
  end.

#[global] Instance M_ret : MRet M := @ret.
#[global] Instance M_bind : MBind M := fun A B k m => bind m k.

(** Field assignments. *)
Definition set_plugins (ps : list Plugin) : M unit :=
  fun s => Normal tt
    (mkState ps (hookCache s) (sortedPlugins s) (isDirty s) (console s) (next_id s)).

Definition set_hookCache (c : gmap string PluginArray) : M unit :=
  fun s => Normal tt
    (mkState (plugins s) c (sortedPlugins s) (isDirty s) (console s) (next_id s)).

Definition set_sortedPlugins (ps : list Plugin) : M unit :=
  fun s => Normal tt
    (mkState (plugins s) (hookCache s) ps (isDirty s) (console s) (next_id s)).

Definition set_isDirty (b : bool) : M unit :=
  fun s => Normal tt
    (mkState (plugins s) (hookCache s) (sortedPlugins s) b (console s) (next_id s)).

(** [console.warn] / [console.error], and the record of a hook call. *)
Definition emit (e : Event) : M unit :=
  fun s => Normal tt
    (mkState (plugins s) (hookCache s) (sortedPlugins s) (isDirty s)
             (console s ++ [e]) (next_id s)).

(** A new array object: [filter] results and array literals. *)
Definition new_array (items : list Plugin) (frozen : bool) : M PluginArray :=
  fun s => Normal (mkArray (next_id s) items frozen)
    (mkState (plugins s) (hookCache s) (sortedPlugins s) (isDirty s)
             (console s) (S (next_id s))).

(** ** [Array.prototype.sort]

    The sort of the language is stable; it is modelled by the stable
    insertion sort driven by the comparator, whose sign decides as in
    JavaScript: [cmp a b <= 0] keeps [a] before [b]. *)
Fixpoint sort_insert {A} (cmp : A -> A -> Z) (x : A) (l : list A) : list A :=
  match l with
  | [] => [x]
  | y :: l' => if cmp x y <=? 0 then x :: y :: l' else y :: sort_insert cmp x l'
  end.

Definition Array_sort {A} (cmp : A -> A -> Z) (l : list A) : list A :=
  foldr (sort_insert cmp) [] l.

(** ** The registry ([Core] and [ExecutionCore]; the same methods of
       [PluginSystem] in [src/index.ts]) *)

(** The state of a fresh object, before its constructor body runs. *)
Definition fresh_state : State := mkState [] ∅ [] false [] 0.

Fixpoint flatten_from (pluginInputs : list PluginInput) (flattened : list Plugin)
  : M (list Plugin) :=
  match pluginInputs with
  | [] => mret flattened
  | input :: rest =>
      match input with
      | InFactory f =>
          match f tt with
          | FArray result => flatten_from rest (flattened ++ result)
          | FPlugin result => flatten_from rest (flattened ++ [result])
          | FThrows e => throw e
          end
      | InArray ps => flatten_from rest (flattened ++ ps)
      | InPlugin p => flatten_from rest (flattened ++ [p])
      end
  end.

Definition flattenPlugins (pluginInputs : list PluginInput) : M (list Plugin) :=
  flatten_from pluginInputs [].

Definition invalidateCache : M unit :=
  set_isDirty true;; set_hookCache ∅.

(** The [for] loop of [use]. *)
Fixpoint use_loop (newPlugins : list Plugin) (existingNames : gset string) : M unit :=
  match newPlugins with
  | [] => mret tt
  | plugin :: rest =>
      if bool_decide (name plugin ∈ existingNames) then
        emit (WarnDuplicate (name plugin));;
        use_loop rest existingNames
      else
        s ← get;
        set_plugins (plugins s ++ [plugin]);;
        use_loop rest ({[name plugin]} ∪ existingNames)
  end.

Definition use (pluginInputs : list PluginInput) : M unit :=
  newPlugins ← flattenPlugins pluginInputs;
  s ← get;
  let existingNames : gset string := list_to_set (name <$> plugins s) in
  use_loop newPlugins existingNames;;
  invalidateCache.

(** [new PluginSystem(plugins)] *)
Definition constructor (pluginInputs : list PluginInput) : Completion unit :=
  use pluginInputs fresh_state.

Definition remove (pluginName : string) : M unit :=
  s ← get;
  let originalLength := length (plugins s) in
  set_plugins (filter (λ p, name p ≠ pluginName) (plugins s));;
  s' ← get;
  if bool_decide (length (plugins s') ≠ originalLength) then invalidateCache
  else mret tt.

Definition getPlugins : M (list Plugin) :=
  s ← get; mret (plugins s).

Definition clear : M unit :=
  set_plugins [];;
  set_sortedPlugins [];;
  set_isDirty false;;
  set_hookCache ∅.

(** The comparator handed to [sort]. *)
Definition by_priority (a b : Plugin) : Z := priority_or_0 b - priority_or_0 a.

Definition ensureSorted : M unit :=
  s ← get;
  if isDirty s then
    set_sortedPlugins
      (if bool_decide (length (plugins s) = 0%nat) then []
       else Array_sort by_priority (plugins s));;
    set_isDirty false
  else mret tt.

(** The predicate of the [filter] in [getPluginsWithHook]. *)
Definition has_hook (hookName : string) (plugin : Plugin) : bool :=
  let container := default VUndefined (hooks plugin) in
  (truthy container
   && String.eqb (typeof container) "object"
   && negb (match container with VNull => true | _ => false end)
   && js_in hookName container)
  || (plugin_has plugin hookName && is_function (plugin_get plugin hookName)).

Definition getPluginsWithHook (hookName : string) : M PluginArray :=
  s ← get;
  match hookCache s !! hookName with
  | Some cached => mret cached
  | None =>
      ensureSorted;;
      s ← get;
      pluginsWithHook ← new_array (filter (λ p, has_hook hookName p) (sortedPlugins s)) false;
      set_hookCache (<[hookName := pluginsWithHook]> (hookCache s));;
      if bool_decide (0 < length (arr_items pluginsWithHook))%nat then mret pluginsWithHook
      else new_array [] true
  end.

(** [plugin[hookName] || plugin.hooks?.[hookName]] *)
Definition getHookFunction (plugin : Plugin) (hookName : string) : Value :=
  js_or (plugin_get plugin hookName)
        (opt_index (default VUndefined (hooks plugin)) hookName).

(** ** Calling user code *)

(** [hookFunction(...args)], where the callee is invoked with [args] as they
    are.  Calling what is not a function is a [TypeError]. *)
Definition call_hook (plugin : Plugin) (hookName : string)
    (hookFunction : Value) (args : Args) : M Value :=
  match hookFunction with
  | VFun body =>
      emit (Called (name plugin) hookName);;
      match body args with
      | Returns v => mret v
      | Throws e => throw e
      end
  | _ => throw (VStr "TypeError: hookFunction is not a function")
  end.

(** How a value settles when it is awaited: a promise or a thenable that
    is resolved with a promise or a thenable follows it, one that rejects
    throws its reason, and anything else is its own result. *)
Fixpoint settle (v : Value) : Outcome :=
  match v with
  | VPromise _ true payload | VThenable _ true payload => settle payload
  | VPromise _ false reason | VThenable _ false reason => Throws reason
  | _ => Returns v
  end.

(** The logical time that awaiting a value takes. *)
Fixpoint settle_time (v : Value) : nat :=
  match v with
  | VPromise delay true payload | VThenable delay true payload =>
      (S delay + settle_time payload)%nat
  | VPromise delay false _ | VThenable delay false _ => S delay
  | _ => 0%nat
  end.

(** [await v] *)
Definition await (v : Value) : M Value :=
  match settle v with
  | Returns x => mret x
  | Throws e => throw e
  end.

(** How one iteration of a dispatch loop ends: it falls through to the next
    candidate ([continue], or the end of the body), or the method returns. *)
Inductive Flow : Type :=
  | Next
  | Return (v : Value).

(** ** The dispatchers of [src/index.ts] *)

Definition exec_body (hookName : string) (args : Args) (plugin : Plugin) : M Flow :=
  let hookFunction := getHookFunction plugin hookName in
  if is_function hookFunction then
    try_catch
      (result ← call_hook plugin hookName hookFunction args;
       if instanceof_Promise result then
         emit (WarnPromise (name plugin) hookName UseExecAsync);;
         mret Next
       else if present result then mret (Return result)
       else mret Next)
      (λ error, emit (ErrorFailed (name plugin) hookName error);; mret Next)
  else mret Next.

Fixpoint exec_loop (hookName : string) (args : Args) (pluginsWithHook : list Plugin)
  : M Value :=
  match pluginsWithHook with
  | [] => mret VNull
  | plugin :: rest =>
      flow ← exec_body hookName args plugin;
      match flow with
      | Return result => mret result
      | Next => exec_loop hookName args rest
      end
  end.

Definition exec (hookName : string) (args : Args) : M Value :=
  pluginsWithHook ← getPluginsWithHook hookName;
  exec_loop hookName args (arr_items pluginsWithHook).

Definition execAsync_body (hookName : string) (args : Args) (plugin : Plugin) : M Flow :=
  let hookFunction := getHookFunction plugin hookName in
  if is_function hookFunction then
    try_catch
      (returned ← call_hook plugin hookName hookFunction args;
       result ← await returned;
       if present result then mret (Return result) else mret Next)
      (λ error, emit (ErrorFailed (name plugin) hookName error);; mret Next)
  else mret Next.

Fixpoint execAsync_loop (hookName : string) (args : Args) (pluginsWithHook : list Plugin)
  : M Value :=
  match pluginsWithHook with
  | [] => mret VNull
  | plugin :: rest =>
      flow ← execAsync_body hookName args plugin;
      match flow with
      | Return result => mret result
      | Next => execAsync_loop hookName args rest
      end
  end.

(** The completion of the model is the settlement of the returned promise. *)
Definition execAsync (hookName : string) (args : Args) : M Value :=
  pluginsWithHook ← getPluginsWithHook hookName;
  execAsync_loop hookName args (arr_items pluginsWithHook).

(** One iteration of [execAll]: the value pushed on [results], if any. *)
Definition execAll_body (hookName : string) (args : Args) (plugin : Plugin)
  : M (option Value) :=
  let hookFunction := getHookFunction plugin hookName in
  if is_function hookFunction then
    try_catch
      (result ← call_hook plugin hookName hookFunction args;
       if instanceof_Promise result then
         emit (WarnPromise (name plugin) hookName UseExecAllAsync);;
         mret None
       else if present result then mret (Some result)
       else mret None)
      (λ error, emit (ErrorFailed (name plugin) hookName error);; mret None)
  else mret None.

Fixpoint execAll_loop (hookName : string) (args : Args) (pluginsWithHook : list Plugin)
    (results : list Value) : M (list Value) :=
  match pluginsWithHook with
  | [] => mret results
  | plugin :: rest =>
      pushed ← execAll_body hookName args plugin;
      execAll_loop hookName args rest
        (match pushed with Some result => results ++ [result] | None => results end)
  end.

Definition execAll (hookName : string) (args : Args) : M (list Value) :=
  pluginsWithHook ← getPluginsWithHook hookName;
  if bool_decide (length (arr_items pluginsWithHook) = 0%nat) then mret []
  else execAll_loop hookName args (arr_items pluginsWithHook) [].

(** *** [execAllAsync]

    Each element of [promises] is the promise built by the [map] callback.
    What [Promise.all] can observe of it is when it settles and how the
    promise in front of its [catch] handler settles. *)
Record Pending : Type := mkPending {
  pend_plugin : string;
  pend_time : nat;
  pend_outcome : Outcome
}.

(** The callback of [map].  The [then] callbacks run in the order of the
    array, before any of the promises they return settles, so that the hook
    functions are called in candidate order. *)
Definition start_hook (hookName : string) (args : Args) (plugin : Plugin) : M Pending :=
  let hookFunction := getHookFunction plugin hookName in
  if is_function hookFunction then
    try_catch
      (returned ← call_hook plugin hookName hookFunction args;
       mret (mkPending (name plugin) (settle_time returned) (settle returned)))
      (λ error, mret (mkPending (name plugin) 0 (Throws error)))
  else mret (mkPending (name plugin) 0 (Returns VNull)).

Fixpoint start_all (hookName : string) (args : Args) (pluginsWithHook : list Plugin)
  : M (list Pending) :=
  match pluginsWithHook with
  | [] => mret []
  | plugin :: rest =>
      promise ← start_hook hookName args plugin;
      promises ← start_all hookName args rest;
      mret (promise :: promises)
  end.

(** The settlement of the promise at index [i]: its [catch] handler turns a
    rejection into a diagnostic and [null]; [Promise.all] stores the value
    at index [i] of its result. *)
Definition settle_one (hookName : string) (results : list Value)
    (entry : nat * Pending) : M (list Value) :=
  match pend_outcome entry.2 with
  | Returns v => mret (<[entry.1 := v]> results)
  | Throws error =>
      emit (ErrorFailed (pend_plugin entry.2) hookName error);;
      mret (<[entry.1 := VNull]> results)
  end.

Fixpoint settle_queue (hookName : string) (queue : list (nat * Pending))
    (results : list Value) : M (list Value) :=
  match queue with
  | [] => mret results
  | entry :: rest =>
      results' ← settle_one hookName results entry;
      settle_queue hookName rest results'
  end.

(** The event loop settles the promises by increasing time, promises of
    equal time in the order in which they were created. *)
Definition by_time (a b : nat * Pending) : Z :=
  Z.of_nat (pend_time a.2) - Z.of_nat (pend_time b.2).

Definition settle_order (promises : list Pending) : list (nat * Pending) :=
  Array_sort by_time (imap pair promises).

(** [await Promise.all(promises)] *)
Definition await_all (hookName : string) (promises : list Pending) : M (list Value) :=
  settle_queue hookName (settle_order promises)
    (replicate (length promises) VUndefined).

Definition execAllAsync (hookName : string) (args : Args) : M (list Value) :=
  pluginsWithHook ← getPluginsWithHook hookName;
  if bool_decide (length (arr_items pluginsWithHook) = 0%nat) then mret []
  else
    (* every element of [promises] is a promise object, which is truthy:
       [filter(Boolean)] keeps them all *)
    promises ← start_all hookName args (arr_items pluginsWithHook);
    results ← await_all hookName promises;
    mret (filter (λ result, present result) results).

(** ** The dispatchers of [src/systems]

    [executeHook] of [SyncPluginSystem] and [executeHookSync] of the hybrid
    [PluginSystem] are one text but for the advice that ends the warning,
    which is [advice] here: [Use AsyncPluginSystem instead.] in the first
    and [Use execAsync/execAllAsync instead.] in the second.  [executeHook]
    of [AsyncPluginSystem] and [executeHookAsync] of the hybrid class are
    one text. *)

Definition executeHookSync (advice : Advice)
    (plugin : Plugin) (hookName : string) (args : Args) : M Value :=
  let hookFunction := getHookFunction plugin hookName in
  if negb (is_function hookFunction) then mret VNull
  else
    try_catch
      (result ← call_hook plugin hookName hookFunction args;
       if instanceof_Promise result then
         emit (WarnPromise (name plugin) hookName advice);;
         mret VNull
       else mret (if present result then result else VNull))
      (λ error, emit (ErrorFailed (name plugin) hookName error);; mret VNull).

Definition SyncPluginSystem_executeHook := executeHookSync UseAsyncPluginSystem.
Definition PluginSystem_executeHookSync := executeHookSync UseExecAsyncOrExecAllAsync.

Definition executeHookAsync (plugin : Plugin) (hookName : string) (args : Args) : M Value :=
  let hookFunction := getHookFunction plugin hookName in
  if negb (is_function hookFunction) then mret VNull
  else
    try_catch
      (returned ← call_hook plugin hookName hookFunction args;
       result ← await returned;
       mret (if present result then result else VNull))
      (λ error, emit (ErrorFailed (name plugin) hookName error);; mret VNull).

(** [result !== null] *)
Definition not_null (v : Value) : bool :=
  match v with VNull => false | _ => true end.

(** The loop shared by the four first-match methods. *)
Fixpoint first_loop (executeHook : Plugin -> string -> Args -> M Value)
    (hookName : string) (args : Args) (pluginsWithHook : list Plugin) : M Value :=
  match pluginsWithHook with
  | [] => mret VNull
  | plugin :: rest =>
      result ← executeHook plugin hookName args;
      if not_null result then mret result
      else first_loop executeHook hookName args rest
  end.

(** The loop shared by the four collecting methods. *)
Fixpoint all_loop (executeHook : Plugin -> string -> Args -> M Value)
    (hookName : string) (args : Args) (pluginsWithHook : list Plugin)
    (results : list Value) : M (list Value) :=
  match pluginsWithHook with
  | [] => mret results
  | plugin :: rest =>
      result ← executeHook plugin hookName args;
      all_loop executeHook hookName args rest
        (if not_null result then results ++ [result] else results)
  end.

Definition SyncPluginSystem_exec (hookName : string) (args : Args) : M Value :=
  pluginsWithHook ← getPluginsWithHook hookName;
  first_loop SyncPluginSystem_executeHook hookName args (arr_items pluginsWithHook).

Definition SyncPluginSystem_execAll (hookName : string) (args : Args) : M (list Value) :=
  pluginsWithHook ← getPluginsWithHook hookName;
  all_loop SyncPluginSystem_executeHook hookName args (arr_items pluginsWithHook) [].

Definition AsyncPluginSystem_exec (hookName : string) (args : Args) : M Value :=
  pluginsWithHook ← getPluginsWithHook hookName;
  first_loop executeHookAsync hookName args (arr_items pluginsWithHook).

Definition AsyncPluginSystem_execAll (hookName : string) (args : Args) : M (list Value) :=
  pluginsWithHook ← getPluginsWithHook hookName;
  all_loop executeHookAsync hookName args (arr_items pluginsWithHook) [].

(** The hybrid [PluginSystem] of [src/systems]. *)
Definition PluginSystem_exec (hookName : string) (args : Args) : M Value :=
  pluginsWithHook ← getPluginsWithHook hookName;
  first_loop PluginSystem_executeHookSync hookName args (arr_items pluginsWithHook).

Definition PluginSystem_execAll (hookName : string) (args : Args) : M (list Value) :=
  pluginsWithHook ← getPluginsWithHook hookName;
  all_loop PluginSystem_executeHookSync hookName args (arr_items pluginsWithHook) [].

Definition PluginSystem_execAsync := AsyncPluginSystem_exec.
Definition PluginSystem_execAllAsync := AsyncPluginSystem_execAll.

(** ** Histories of an object *)

(** The calls that a client can make on a [PluginSystem]. *)
Inductive Op : Type :=
  | OpUse (pluginInputs : list PluginInput)
  | OpRemove (pluginName : string)
  | OpClear
  | OpGetPluginsWithHook (hookName : string)
  | OpExec (hookName : string) (args : Args)
  | OpExecAsync (hookName : string) (args : Args)
  | OpExecAll (hookName : string) (args : Args)
  | OpExecAllAsync (hookName : string) (args : Args).

(** The state after a call, whether it returned or threw. *)
Definition perform (op : Op) (s : State) : State :=
  match op with
  | OpUse pluginInputs => final_state (use pluginInputs s)
  | OpRemove pluginName => final_state (remove pluginName s)
  | OpClear => final_state (clear s)
  | OpGetPluginsWithHook hookName => final_state (getPluginsWithHook hookName s)
  | OpExec hookName args => final_state (exec hookName args s)
  | OpExecAsync hookName args => final_state (execAsync hookName args s)
  | OpExecAll hookName args => final_state (execAll hookName args s)
  | OpExecAllAsync hookName args => final_state (execAllAsync hookName args s)
  end.

Definition run (ops : list Op) (s : State) : State :=
  foldl (λ s op, perform op s) s ops.

(** The object built by [new PluginSystem(pluginInputs)] and then used
    through the calls [ops], in this order. *)
Definition history (pluginInputs : list PluginInput) (ops : list Op) : State :=
  run ops (final_state (constructor pluginInputs)).

(** The state with more lines on the console. *)
Definition logged (s : State) (events : list Event) : State :=
  mkState (plugins s) (hookCache s) (sortedPlugins s) (isDirty s)
          (console s ++ events) (next_id s).

(** The plugin names of the [Called] events: the order of invocation. *)
Definition calls (events : list Event) : list string :=
  omap (λ e, match e with Called plugin _ => Some plugin | _ => None end) events.

(** The diagnostics among the events. *)
Definition is_diagnostic (e : Event) : bool :=
  match e with Called _ _ => false | _ => true end.

Definition diagnostics (events : list Event) : list Event :=
  filter (λ e, is_diagnostic e) events.


(** ** What [use] is to do, in the words of the specification

    Of the flattened plugins, in order, one is accepted when its name is not
    yet taken, by the registry or by a plugin accepted earlier in the call;
    the others are skipped. *)
Fixpoint accepted (taken : list string) (newPlugins : list Plugin) : list Plugin :=
  match newPlugins with
  | [] => []
  | plugin :: rest =>
      if decide (name plugin ∈ taken) then accepted taken rest
      else plugin :: accepted (taken ++ [name plugin]) rest
  end.

Fixpoint skipped (taken : list string) (newPlugins : list Plugin) : list string :=
  match newPlugins with
  | [] => []
  | plugin :: rest =>
      if decide (name plugin ∈ taken) then name plugin :: skipped taken rest
      else skipped (taken ++ [name plugin]) rest
  end.


(** ** The invariant of the registry *)

(** The priority-sorted view of the registered plugins. *)
Definition sorted_view (s : State) : list Plugin :=
  Array_sort by_priority (plugins s).

Record consistent (s : State) : Prop := mkConsistent {
  names_unique : NoDup (name <$> plugins s);
  view_current : isDirty s = false → sortedPlugins s = sorted_view s;
  cache_current : ∀ hookName cached,
    hookCache s !! hookName = Some cached →
    arr_items cached = filter (λ p, has_hook hookName p) (sorted_view s)
    ∧ (arr_id cached < next_id s)%nat
    ∧ arr_frozen cached = false
}.

(** What [getPluginsWithHook] computes when the name is not in the cache. *)
Definition resolved (hookName : string) (s : State) : list Plugin :=
  filter (λ p, has_hook hookName p) (sorted_view s).

(** The state after a first resolution of [hookName]. *)
Definition cached_state (hookName : string) (s : State) : State :=
  mkState (plugins s)
          (<[hookName := mkArray (next_id s) (resolved hookName s) false]> (hookCache s))
          (sorted_view s) false (console s)
          (if bool_decide (resolved hookName s = []) then S (S (next_id s))
           else S (next_id s)).


(** ** What one candidate contributes to a dispatch *)

(** What calling the hook of a candidate with [args] does, if the candidate
    has a hook function at all. *)
Definition hook_outcome (hookName : string) (args : Args) (plugin : Plugin)
  : option Outcome :=
  match getHookFunction plugin hookName with
  | VFun body => Some (body args)
  | _ => None
  end.

(** The present result of a candidate under a synchronous strategy. *)
Definition sync_value (hookName : string) (args : Args) (plugin : Plugin)
  : option Value :=
  match hook_outcome hookName args plugin with
  | Some (Returns v) =>
      if instanceof_Promise v then None
      else if present v then Some v else None
  | _ => None
  end.

(** The present result of a candidate under an asynchronous strategy. *)
Definition async_value (hookName : string) (args : Args) (plugin : Plugin)
  : option Value :=
  match hook_outcome hookName args plugin with
  | Some (Returns v) =>
      match settle v with
      | Returns result => if present result then Some result else None
      | Throws _ => None
      end
  | _ => None
  end.

(** The failure of a candidate under an asynchronous strategy: its hook
    throws, or returns a promise that rejects. *)
Definition async_failure (hookName : string) (args : Args) (plugin : Plugin)
  : option Value :=
  match hook_outcome hookName args plugin with
  | Some (Throws e) => Some e
  | Some (Returns v) =>
      match settle v with
      | Throws e => Some e
      | Returns _ => None
      end
  | None => None
  end.

(** The trace of a candidate under a synchronous strategy whose warning
    ends in [advice]. *)
Definition sync_events (advice : Advice) (hookName : string) (args : Args)
    (plugin : Plugin) : list Event :=
  match hook_outcome hookName args plugin with
  | None => []
  | Some (Returns v) =>
      Called (name plugin) hookName ::
      (if instanceof_Promise v then [WarnPromise (name plugin) hookName advice] else [])
  | Some (Throws e) =>
      [Called (name plugin) hookName; ErrorFailed (name plugin) hookName e]
  end.

(** The trace of a candidate that is awaited before the next one starts. *)
Definition async_events (hookName : string) (args : Args) (plugin : Plugin)
  : list Event :=
  match hook_outcome hookName args plugin with
  | None => []
  | Some _ =>
      Called (name plugin) hookName ::
      match async_failure hookName args plugin with
      | Some e => [ErrorFailed (name plugin) hookName e]
      | None => []
      end
  end.

(** The candidates that a first-match loop reaches: those up to the first
    one with a present result, this one included. *)
Fixpoint reached (value : Plugin → option Value) (candidates : list Plugin)
  : list Plugin :=
  match candidates with
  | [] => []
  | plugin :: rest =>
      plugin :: match value plugin with
                | Some _ => []
                | None => reached value rest
                end
  end.

(** The result of a first-match loop. *)
Definition first_value (value : Plugin → option Value) (candidates : list Plugin)
  : Value :=
  default VNull (head (omap value candidates)).

(** The trace of a loop over [candidates]. *)
Definition trace (events : Plugin → list Event) (candidates : list Plugin)
  : list Event :=
  candidates ≫= events.


(** The promise that [execAllAsync] builds for a candidate. *)
Definition pending_of (hookName : string) (args : Args) (plugin : Plugin) : Pending :=
  match hook_outcome hookName args plugin with
  | Some (Returns v) => mkPending (name plugin) (settle_time v) (settle v)
  | Some (Throws e) => mkPending (name plugin) 0 (Throws e)
  | None => mkPending (name plugin) 0 (Returns VNull)
  end.

(** The trace of starting a candidate in [execAllAsync]. *)
Definition start_events (hookName : string) (args : Args) (plugin : Plugin)
  : list Event :=
  match hook_outcome hookName args plugin with
  | Some _ => [Called (name plugin) hookName]
  | None => []
  end.

(** The value that a promise of [execAllAsync] leaves in the result of
    [Promise.all], and the diagnostic of its [catch] handler. *)
Definition final_value (promise : Pending) : Value :=
  match pend_outcome promise with
  | Returns v => v
  | Throws _ => VNull
  end.

Definition settle_events (hookName : string) (promise : Pending) : list Event :=
  match pend_outcome promise with
  | Returns _ => []
  | Throws e => [ErrorFailed (pend_plugin promise) hookName e]
  end.

(** The writes of the settlements into the result of [Promise.all]. *)
Definition written (results : list Value) (queue : list (nat * Pending)) : list Value :=
  foldl (λ results entry, <[entry.1 := final_value entry.2]> results) results queue.

(** The diagnostics of [execAllAsync], in the order in which the promises
    settle. *)
Definition settle_trace (hookName : string) (args : Args) (candidates : list Plugin)
  : list Event :=
  settle_order (pending_of hookName args <$> candidates)
  ≫= λ entry, settle_events hookName entry.2.

(** The comparison of two promises by the time at which they settle, and
    the promises whose [catch] handler runs. *)
Definition by_settle_time (a b : Pending) : Z :=
  Z.of_nat (pend_time a) - Z.of_nat (pend_time b).

Definition rejects (promise : Pending) : bool :=
  match pend_outcome promise with
  | Throws _ => true
  | Returns _ => false
  end.

(** The diagnostic of a candidate that fails under an asynchronous
    strategy. *)
Definition failure_events (hookName : string) (args : Args) (plugin : Plugin)
  : list Event :=
  match async_failure hookName args plugin with
  | Some e => [ErrorFailed (name plugin) hookName e]
  | None => []
  end.


(** The part of [execAllAsync] behind its guard on the empty array. *)
Definition execAllAsync_run (hookName : string) (args : Args)
    (pluginsWithHook : list Plugin) : M (list Value) :=
  promises ← start_all hookName args pluginsWithHook;
  results ← await_all hookName promises;
  mret (filter (λ result, present result) results).


(** ** The resolver, in the words of the specification

    A hook implementation is resolvable for a plugin when the direct
    attribute named [hookName] is callable, or else the entry under
    [hookName] inside the [hooks] container is. *)
Definition spec_resolvable (hookName : string) (plugin : Plugin) : bool :=
  is_function (plugin_get plugin hookName)
  || is_function (opt_index (default VUndefined (hooks plugin)) hookName).

(** The elements of the array that a call of the resolver returned. *)
Definition returned_items (c : Completion PluginArray) : list Plugin :=
  match c with
  | Normal pluginsWithHook _ => arr_items pluginsWithHook
  | Abrupt _ _ => []
  end.


(** The calls that invalidate the sorted view and the hook cache: a [use]
    that returns, a [remove] of a registered name, and [clear]. *)
Definition invalidates (op : Op) (s : State) : Prop :=
  match op with
  | OpUse pluginInputs => ∃ s', use pluginInputs s = Normal tt s'
  | OpRemove pluginName => pluginName ∈ name <$> plugins s
  | OpClear => True
  | _ => False
  end.


(** The exception that a plugin input throws when it is flattened: that of
    a factory that throws. *)
Definition factory_throws (input : PluginInput) : option Value :=
  match input with
  | InFactory f =>
      match f tt with
      | FThrows e => Some e
      | _ => None
      end
  | _ => None
  end.


(** ** The plugins that an input stands for

    What [flattenPlugins] splices in for one input whose factory, if it is
    one, returns. *)
Definition input_plugins (input : PluginInput) : list Plugin :=
  match input with
  | InPlugin p => [p]
  | InArray ps => ps
  | InFactory f =>
      match f tt with
      | FPlugin p => [p]
      | FArray ps => ps
      | FThrows _ => []
      end
  end.


(** The calls that resolve or dispatch, as opposed to those that register
    and unregister. *)
Definition dispatches (op : Op) : bool :=
  match op with
  | OpUse _ | OpRemove _ | OpClear => false
  | _ => true
  end.

(** Whether [await] follows a value: a promise or a thenable.  An object
    whose property map lists a callable [then] counts as one too, so that
    a statement about values that are not awaited does not speak of it. *)
Definition thenable (v : Value) : bool :=
  match v with
  | VPromise _ _ _ | VThenable _ _ _ => true
  | VObj fields => is_function (default VUndefined (fields !! "then"))
  | _ => false
  end.

(** Whether the hook of a candidate returns such a value. *)
Definition returns_thenable (hookName : string) (args : Args) (plugin : Plugin) : bool :=
  match hook_outcome hookName args plugin with
  | Some (Returns v) => thenable v
  | _ => false
  end.

(** A line of the console with the advice of another method, if it is the
    warning about a promise. *)
Definition with_advice (advice : Advice) (e : Event) : Event :=
  match e with
  | WarnPromise plugin hook _ => WarnPromise plugin hook advice
  | _ => e
  end.


(** * Properties *)

(** ** The stable sort *)

Section sorting.
Context {A : Type} (cmp : A -> A -> Z) (rank : A -> Z).
Hypothesis cmp_rank : ∀ a b, cmp a b <= 0 ↔ rank a <= rank b.

Lemma sort_insert_perm x l : sort_insert cmp x l ≡ₚ x :: l.
Proof.
  induction l as [|y l IH]; simpl; [done|].
  destruct (cmp x y <=? 0); [done|].
  rewrite IH. apply Permutation_swap.
Qed.

Lemma Array_sort_perm l : Array_sort cmp l ≡ₚ l.
Proof.
  induction l as [|x l IH]; simpl; [done|].
  rewrite sort_insert_perm. by rewrite IH.
Qed.

Lemma Array_sort_length l : length (Array_sort cmp l) = length l.
Proof. by rewrite Array_sort_perm. Qed.

Lemma sort_insert_sorted x l :
  StronglySorted (λ a b, rank a <= rank b) l →
  StronglySorted (λ a b, rank a <= rank b) (sort_insert cmp x l).
Proof.
  induction 1 as [|y l Hl IH Hy]; simpl.
  - repeat constructor.
  - destruct (Z.leb_spec (cmp x y) 0) as [Hle|Hgt].
    + apply cmp_rank in Hle.
      constructor; [by constructor|].
      constructor; [done|].
      eapply Forall_impl; [exact Hy|]. simpl. lia.
    + assert (rank y <= rank x).
      { destruct (Z.le_gt_cases (rank x) (rank y)) as [Hc|Hc]; [|lia].
        apply cmp_rank in Hc. lia. }
      constructor; [done|].
      rewrite sort_insert_perm. by constructor.
Qed.

Lemma Array_sort_sorted l :
  StronglySorted (λ a b, rank a <= rank b) (Array_sort cmp l).
Proof.
  induction l as [|x l IH]; simpl; [constructor|].
  by apply sort_insert_sorted.
Qed.

(** Stability: the elements of one rank keep their order. *)
Lemma sort_insert_stable k x l :
  filter (λ y, rank y = k) (sort_insert cmp x l)
  = filter (λ y, rank y = k) (x :: l).
Proof.
  induction l as [|y l IH]; simpl; [done|].
  destruct (Z.leb_spec (cmp x y) 0) as [Hle|Hgt]; [done|].
  assert (rank x ≠ rank y).
  { intros Heq. assert (cmp x y <= 0) by (apply cmp_rank; lia). lia. }
  rewrite (filter_cons _ y), IH, !filter_cons.
  repeat case_decide; done || lia.
Qed.

Lemma Array_sort_stable k l :
  filter (λ y, rank y = k) (Array_sort cmp l) = filter (λ y, rank y = k) l.
Proof.
  induction l as [|x l IH]; simpl; [done|].
  rewrite sort_insert_stable, !filter_cons, IH. done.
Qed.

Lemma sort_insert_head x l :
  Forall (λ y, rank x <= rank y) l → sort_insert cmp x l = x :: l.
Proof.
  destruct 1 as [|y l Hy Hl]; simpl; [done|].
  destruct (Z.leb_spec (cmp x y) 0) as [Hle|Hgt]; [done|].
  apply cmp_rank in Hy. lia.
Qed.

(** Taking the elements with a property commutes with the sort. *)
Lemma sort_insert_filter (P : A → Prop) `{!∀ x, Decision (P x)} x l :
  StronglySorted (λ a b, rank a <= rank b) l →
  filter P (sort_insert cmp x l)
  = if decide (P x) then sort_insert cmp x (filter P l) else filter P l.
Proof.
  induction 1 as [|y l Hl IH Hy]; simpl.
  - rewrite filter_cons. by destruct (decide (P x)).
  - destruct (Z.leb_spec (cmp x y) 0) as [Hle|Hgt].
    + rewrite (filter_cons _ x). destruct (decide (P x)) as [Hx|Hx]; [|done].
      rewrite sort_insert_head; [done|].
      apply cmp_rank in Hle. apply Forall_forall. intros z Hz.
      apply list_elem_of_filter in Hz as [_ Hz].
      apply elem_of_cons in Hz as [->|Hz]; [done|].
      rewrite Forall_forall in Hy. specialize (Hy z Hz). simpl in Hy. lia.
    + rewrite (filter_cons _ y), IH, (filter_cons _ y).
      destruct (decide (P x)) as [Hx|Hx], (decide (P y)) as [Hpy|Hpy]; simpl; try done.
      destruct (Z.leb_spec (cmp x y) 0); [lia|done].
Qed.

Lemma Array_sort_filter (P : A → Prop) `{!∀ x, Decision (P x)} l :
  filter P (Array_sort cmp l) = Array_sort cmp (filter P l).
Proof.
  induction l as [|x l IH]; simpl; [done|].
  rewrite sort_insert_filter by apply Array_sort_sorted.
  rewrite filter_cons, IH. by destruct (decide (P x)).
Qed.

End sorting.

(** ** The monad *)

Ltac munfold :=
  unfold mbind, M_bind, mret, M_ret, bind, ret, get, put, throw, try_catch,
    emit, set_plugins, set_hookCache, set_sortedPlugins, set_isDirty,
    new_array, invalidateCache in *.

Lemma logged_nil s : logged s [] = s.
Proof. destruct s. unfold logged. simpl. by rewrite app_nil_r. Qed.

Lemma logged_logged s e1 e2 : logged (logged s e1) e2 = logged s (e1 ++ e2).
Proof. unfold logged. simpl. by rewrite app_assoc. Qed.

Lemma is_function_VFun v : is_function v = true ↔ ∃ body, v = VFun body.
Proof.
  split; [|by intros [? ->]].
  destruct v; try discriminate. eauto.
Qed.

(** ** Registration *)

Lemma flatten_from_state pluginInputs flattened s :
  final_state (flatten_from pluginInputs flattened s) = s.
Proof.
  revert flattened.
  induction pluginInputs as [|input rest IH]; intros flattened; simpl; [done|].
  destruct input as [p|f|ps]; try apply IH.
  destruct (f tt); try apply IH. done.
Qed.

Lemma flattenPlugins_state pluginInputs s :
  final_state (flattenPlugins pluginInputs s) = s.
Proof. apply flatten_from_state. Qed.

Lemma use_loop_spec newPlugins (existingNames : gset string) taken s :
  (∀ n, n ∈ existingNames ↔ n ∈ taken) →
  use_loop newPlugins existingNames s
  = Normal tt
      (mkState (plugins s ++ accepted taken newPlugins) (hookCache s)
               (sortedPlugins s) (isDirty s)
               (console s ++ (WarnDuplicate <$> skipped taken newPlugins))
               (next_id s)).
Proof.
  revert existingNames taken s.
  induction newPlugins as [|plugin rest IH]; intros names taken s Hnames; simpl.
  - rewrite !app_nil_r. by destruct s.
  - destruct (decide (name plugin ∈ taken)) as [Hin|Hin].
    + rewrite bool_decide_eq_true_2 by by apply Hnames.
      munfold. simpl. rewrite (IH _ taken) by done. simpl.
      by rewrite <- app_assoc.
    + rewrite bool_decide_eq_false_2 by by rewrite Hnames.
      munfold. simpl. rewrite (IH _ (taken ++ [name plugin])); simpl.
      * by rewrite <- app_assoc.
      * intros n. rewrite elem_of_union, elem_of_singleton, elem_of_app,
          list_elem_of_singleton, Hnames. tauto.
Qed.

(** [use], when no factory throws. *)
Lemma use_spec pluginInputs newPlugins s :
  flattenPlugins pluginInputs s = Normal newPlugins s →
  use pluginInputs s
  = Normal tt
      (mkState (plugins s ++ accepted (name <$> plugins s) newPlugins) ∅
               (sortedPlugins s) true
               (console s ++ (WarnDuplicate <$> skipped (name <$> plugins s) newPlugins))
               (next_id s)).
Proof.
  intros Hflat. unfold use. munfold. rewrite Hflat.
  rewrite (use_loop_spec _ _ (name <$> plugins s)); [done|].
  intros n. by rewrite elem_of_list_to_set.
Qed.

(** [use], when a factory throws: the exception leaves [use], which has
    changed nothing. *)
Lemma use_throws pluginInputs e s s' :
  flattenPlugins pluginInputs s = Abrupt e s' →
  use pluginInputs s = Abrupt e s.
Proof.
  intros Hflat. pose proof (flattenPlugins_state pluginInputs s) as Hs.
  rewrite Hflat in Hs. simpl in Hs. subst s'.
  unfold use. munfold. by rewrite Hflat.
Qed.

Lemma flattenPlugins_cases pluginInputs s :
  (∃ newPlugins, flattenPlugins pluginInputs s = Normal newPlugins s)
  ∨ (∃ e, flattenPlugins pluginInputs s = Abrupt e s).
Proof.
  pose proof (flattenPlugins_state pluginInputs s) as Hs.
  destruct (flattenPlugins pluginInputs s) as [l s'|e s']; simpl in Hs; subst; eauto.
Qed.

Lemma accepted_NoDup taken newPlugins :
  NoDup taken → NoDup (taken ++ (name <$> accepted taken newPlugins)).
Proof.
  revert taken. induction newPlugins as [|plugin rest IH]; intros taken Hnd; simpl.
  - by rewrite app_nil_r.
  - destruct (decide (name plugin ∈ taken)) as [Hin|Hin]; [by apply IH|].
    rewrite fmap_cons, cons_middle, app_assoc. apply IH.
    apply NoDup_app. split_and!; [done| |apply NoDup_singleton].
    intros n Hn ->%list_elem_of_singleton. done.
Qed.

(** ** The invariant *)

Lemma consistent_fresh : consistent fresh_state.
Proof. split; simpl; [constructor|done|]. intros ??. by rewrite lookup_empty. Qed.

Lemma consistent_logged s events : consistent s → consistent (logged s events).
Proof. intros [H1 H2 H3]. split; simpl; done. Qed.

Lemma use_consistent pluginInputs s :
  consistent s → consistent (final_state (use pluginInputs s)).
Proof.
  intros Hs. destruct (flattenPlugins_cases pluginInputs s) as [[new Hf]|[e Hf]].
  - rewrite (use_spec _ _ _ Hf). simpl. split; simpl.
    + rewrite fmap_app. apply accepted_NoDup, Hs.
    + done.
    + intros ??. by rewrite lookup_empty.
  - by rewrite (use_throws _ _ _ _ Hf).
Qed.

Lemma filter_length_eq {B} (P : B → Prop) `{!∀ x, Decision (P x)} (l : list B) :
  length (filter P l) = length l → filter P l = l.
Proof.
  induction l as [|x l IH]; [done|].
  rewrite filter_cons. destruct (decide (P x)); simpl.
  - intros [=]. f_equal. by apply IH.
  - intros Hlen. pose proof (length_filter P l). lia.
Qed.

Lemma filter_all {B} (P : B → Prop) `{!∀ x, Decision (P x)} (l : list B) :
  Forall P l → filter P l = l.
Proof.
  induction 1 as [|x l Hx Hl IH]; [done|].
  rewrite filter_cons_True by done. by rewrite IH.
Qed.

Lemma filter_none {B} (P : B → Prop) `{!∀ x, Decision (P x)} (l : list B) :
  Forall (λ x, ¬ P x) l → filter P l = [].
Proof.
  induction 1 as [|x l Hx Hl IH]; [done|].
  by rewrite filter_cons_False.
Qed.

Lemma remove_absent pluginName s :
  pluginName ∉ name <$> plugins s → remove pluginName s = Normal tt s.
Proof.
  intros Hnot. unfold remove. munfold. simpl.
  assert (filter (λ p, name p ≠ pluginName) (plugins s) = plugins s) as ->.
  { apply filter_all. apply Forall_forall. intros p Hp Heq.
    apply Hnot. rewrite <- Heq. apply list_elem_of_fmap. eauto. }
  rewrite bool_decide_eq_false_2 by (intros ?; done).
  by destruct s.
Qed.

Lemma remove_present pluginName s :
  pluginName ∈ name <$> plugins s →
  remove pluginName s
  = Normal tt (mkState (filter (λ p, name p ≠ pluginName) (plugins s)) ∅
                       (sortedPlugins s) true (console s) (next_id s)).
Proof.
  intros Hin. unfold remove. munfold. simpl.
  rewrite bool_decide_eq_true_2; [done|].
  intros Hlen. apply filter_length_eq in Hlen.
  apply list_elem_of_fmap in Hin as (p & -> & Hp).
  rewrite <- Hlen in Hp. apply list_elem_of_filter in Hp as [Hp _]. done.
Qed.

Lemma remove_consistent pluginName s :
  consistent s → consistent (final_state (remove pluginName s)).
Proof.
  intros Hs. destruct (decide (pluginName ∈ name <$> plugins s)) as [Hin|Hin].
  - rewrite remove_present by done. split; simpl.
    + eapply sublist_NoDup; [apply (names_unique _ Hs)|].
      apply fmap_sublist, sublist_filter.
    + done.
    + intros ??. by rewrite lookup_empty.
  - by rewrite remove_absent.
Qed.

Lemma clear_spec s :
  clear s = Normal tt (mkState [] ∅ [] false (console s) (next_id s)).
Proof. done. Qed.

Lemma clear_consistent s : consistent (final_state (clear s)).
Proof.
  rewrite clear_spec. split; simpl; [constructor|done|].
  intros ??. by rewrite lookup_empty.
Qed.

(** ** The resolver *)

Lemma ensureSorted_spec s :
  ensureSorted s
  = Normal tt
      (mkState (plugins s) (hookCache s)
               (if isDirty s then sorted_view s else sortedPlugins s)
               false (console s) (next_id s)).
Proof.
  unfold ensureSorted. munfold. simpl.
  destruct (isDirty s) eqn:Hd; simpl.
  - case_bool_decide as Hlen; [|done].
    apply nil_length_inv in Hlen. unfold sorted_view. by rewrite Hlen.
  - destruct s; simpl in *. by subst.
Qed.

Lemma getPluginsWithHook_hit hookName cached s :
  hookCache s !! hookName = Some cached →
  getPluginsWithHook hookName s = Normal cached s.
Proof. intros Hc. unfold getPluginsWithHook. munfold. by rewrite Hc. Qed.

Lemma getPluginsWithHook_miss hookName s :
  consistent s →
  hookCache s !! hookName = None →
  getPluginsWithHook hookName s
  = Normal (if bool_decide (resolved hookName s = [])
            then mkArray (S (next_id s)) [] true
            else mkArray (next_id s) (resolved hookName s) false)
           (cached_state hookName s).
Proof.
  intros Hs Hc. unfold getPluginsWithHook.
  unfold mbind, M_bind, bind at 1. unfold get at 1. rewrite Hc.
  unfold mbind, M_bind, bind at 1. rewrite ensureSorted_spec.
  assert ((if isDirty s then sorted_view s else sortedPlugins s) = sorted_view s) as ->.
  { destruct (isDirty s) eqn:Hd; [done|]. by apply Hs. }
  munfold. simpl. unfold cached_state, resolved.
  destruct (filter _ (sorted_view s)) as [|p l] eqn:Hf; simpl; done.
Qed.

Lemma cached_state_consistent hookName s :
  consistent s → consistent (cached_state hookName s).
Proof.
  intros [H1 H2 H3]. split; simpl; [done|done|].
  intros h cached. unfold sorted_view at 1. simpl.
  destruct (decide (hookName = h)) as [->|Hne].
  - rewrite lookup_insert_eq. intros [= <-]. simpl. split_and!; [done| |done].
    case_bool_decide; lia.
  - rewrite lookup_insert_ne by done. intros Hc.
    destruct (H3 _ _ Hc) as (? & ? & ?). split_and!; [done| |done].
    case_bool_decide; lia.
Qed.

(** The resolver always returns; it returns the filtered sorted view. *)
Lemma getPluginsWithHook_spec hookName s :
  consistent s →
  ∃ pluginsWithHook s',
    getPluginsWithHook hookName s = Normal pluginsWithHook s'
    ∧ arr_items pluginsWithHook = resolved hookName s
    ∧ consistent s'
    ∧ plugins s' = plugins s
    ∧ console s' = console s
    ∧ (next_id s ≤ next_id s')%nat.
Proof.
  intros Hs. destruct (hookCache s !! hookName) as [cached|] eqn:Hc.
  - exists cached, s. rewrite (getPluginsWithHook_hit _ _ _ Hc).
    split_and!; try done. by apply Hs.
  - eexists _, _. rewrite (getPluginsWithHook_miss _ _ Hs Hc).
    split_and!; [done| |by apply cached_state_consistent|done|done|].
    + by case_bool_decide.
    + simpl. case_bool_decide; lia.
Qed.

(** The resolver returns in every state. *)
Lemma getPluginsWithHook_returns hookName s :
  ∃ pluginsWithHook s', getPluginsWithHook hookName s = Normal pluginsWithHook s'.
Proof.
  unfold getPluginsWithHook. unfold mbind, M_bind, bind at 1. unfold get at 1.
  destruct (hookCache s !! hookName); [by eexists _, _|].
  unfold mbind, M_bind, bind at 1. rewrite ensureSorted_spec.
  munfold. simpl. case_bool_decide; by eexists _, _.
Qed.

(** ** One candidate *)


Lemma present_not_null v : present v = true → not_null v = true.
Proof. by destruct v. Qed.

Ltac hook_cases hookName args plugin :=
  unfold sync_value, async_value, sync_events, async_events, async_failure,
    hook_outcome, call_hook;
  destruct (getHookFunction plugin hookName) as [| | | | | |?body| |]; simpl;
  try (by rewrite logged_nil);
  munfold; simpl;
  match goal with |- context [?b args] => destruct (b args) as [v|e] end;
  simpl; try done.

Lemma exec_body_spec hookName args plugin s :
  exec_body hookName args plugin s
  = Normal (match sync_value hookName args plugin with
            | Some v => Return v
            | None => Next
            end)
           (logged s (sync_events UseExecAsync hookName args plugin)).
Proof.
  unfold exec_body.
  hook_cases hookName args plugin.
  - destruct (instanceof_Promise v); simpl;
      [by rewrite <- app_assoc|].
    by destruct (present v).
  - by rewrite <- app_assoc.
Qed.

Lemma execAll_body_spec hookName args plugin s :
  execAll_body hookName args plugin s
  = Normal (sync_value hookName args plugin)
           (logged s (sync_events UseExecAllAsync hookName args plugin)).
Proof.
  unfold execAll_body.
  hook_cases hookName args plugin.
  - destruct (instanceof_Promise v); simpl;
      [by rewrite <- app_assoc|].
    by destruct (present v).
  - by rewrite <- app_assoc.
Qed.

Lemma executeHookSync_spec advice hookName args plugin s :
  executeHookSync advice plugin hookName args s
  = Normal (default VNull (sync_value hookName args plugin))
           (logged s (sync_events advice hookName args plugin)).
Proof.
  unfold executeHookSync.
  hook_cases hookName args plugin.
  - destruct (instanceof_Promise v); simpl;
      [by rewrite <- app_assoc|].
    by destruct (present v).
  - by rewrite <- app_assoc.
Qed.

Lemma execAsync_body_spec hookName args plugin s :
  execAsync_body hookName args plugin s
  = Normal (match async_value hookName args plugin with
            | Some v => Return v
            | None => Next
            end)
           (logged s (async_events hookName args plugin)).
Proof.
  unfold execAsync_body, await.
  hook_cases hookName args plugin.
  - destruct (settle v) as [result|e]; simpl.
    + by destruct (present result).
    + by rewrite <- app_assoc.
  - by rewrite <- app_assoc.
Qed.

Lemma executeHookAsync_spec hookName args plugin s :
  executeHookAsync plugin hookName args s
  = Normal (default VNull (async_value hookName args plugin))
           (logged s (async_events hookName args plugin)).
Proof.
  unfold executeHookAsync, await.
  hook_cases hookName args plugin.
  - destruct (settle v) as [result|e]; simpl.
    + by destruct (present result).
    + by rewrite <- app_assoc.
  - by rewrite <- app_assoc.
Qed.

(** ** The loops *)

Lemma first_value_cons_Some value plugin rest v :
  value plugin = Some v → first_value value (plugin :: rest) = v.
Proof. intros Hv. unfold first_value. simpl. by rewrite Hv. Qed.

Lemma first_value_cons_None value plugin rest :
  value plugin = None → first_value value (plugin :: rest) = first_value value rest.
Proof. intros Hv. unfold first_value. simpl. by rewrite Hv. Qed.

Lemma exec_loop_spec hookName args candidates s :
  exec_loop hookName args candidates s
  = Normal (first_value (sync_value hookName args) candidates)
           (logged s (trace (sync_events UseExecAsync hookName args)
                            (reached (sync_value hookName args) candidates))).
Proof.
  revert s. induction candidates as [|plugin rest IH]; intros s; simpl.
  - by rewrite logged_nil.
  - unfold mbind, M_bind, bind. rewrite exec_body_spec.
    unfold trace. simpl.
    destruct (sync_value hookName args plugin) as [v|] eqn:Hv.
    + rewrite (first_value_cons_Some _ _ _ _ Hv). simpl. by rewrite app_nil_r.
    + rewrite (first_value_cons_None _ _ _ Hv), IH, logged_logged. done.
Qed.

Lemma execAsync_loop_spec hookName args candidates s :
  execAsync_loop hookName args candidates s
  = Normal (first_value (async_value hookName args) candidates)
           (logged s (trace (async_events hookName args)
                            (reached (async_value hookName args) candidates))).
Proof.
  revert s. induction candidates as [|plugin rest IH]; intros s; simpl.
  - by rewrite logged_nil.
  - unfold mbind, M_bind, bind. rewrite execAsync_body_spec.
    unfold trace. simpl.
    destruct (async_value hookName args plugin) as [v|] eqn:Hv.
    + rewrite (first_value_cons_Some _ _ _ _ Hv). simpl. by rewrite app_nil_r.
    + rewrite (first_value_cons_None _ _ _ Hv), IH, logged_logged. done.
Qed.

Lemma execAll_loop_spec hookName args candidates results s :
  execAll_loop hookName args candidates results s
  = Normal (results ++ omap (sync_value hookName args) candidates)
           (logged s (trace (sync_events UseExecAllAsync hookName args) candidates)).
Proof.
  revert results s. induction candidates as [|plugin rest IH]; intros results s; simpl.
  - by rewrite logged_nil, app_nil_r.
  - unfold mbind, M_bind, bind. rewrite execAll_body_spec, IH, logged_logged.
    unfold trace. simpl.
    destruct (sync_value hookName args plugin) as [v|]; [|done].
    by rewrite <- app_assoc.
Qed.

(** The loops of [src/systems], for an [executeHook] that normalises the
    contribution [value] of a candidate to [null]. *)
Section shared_loops.
Context (executeHook : Plugin → string → Args → M Value).
Context (value : Plugin → option Value) (events : Plugin → list Event).
Context (hookName : string) (args : Args).
Hypothesis executeHook_spec : ∀ plugin s,
  executeHook plugin hookName args s
  = Normal (default VNull (value plugin)) (logged s (events plugin)).
Hypothesis value_present : ∀ plugin v, value plugin = Some v → present v = true.

Lemma first_loop_spec candidates s :
  first_loop executeHook hookName args candidates s
  = Normal (first_value value candidates)
           (logged s (trace events (reached value candidates))).
Proof.
  revert s. induction candidates as [|plugin rest IH]; intros s; simpl.
  - by rewrite logged_nil.
  - unfold mbind, M_bind, bind. rewrite executeHook_spec.
    unfold trace. simpl.
    destruct (value plugin) as [v|] eqn:Hv; simpl.
    + rewrite (first_value_cons_Some _ _ _ _ Hv).
      rewrite (present_not_null v) by eauto. by rewrite app_nil_r.
    + rewrite (first_value_cons_None _ _ _ Hv), IH, logged_logged. done.
Qed.

Lemma all_loop_spec candidates results s :
  all_loop executeHook hookName args candidates results s
  = Normal (results ++ omap value candidates)
           (logged s (trace events candidates)).
Proof.
  revert results s.
  induction candidates as [|plugin rest IH]; intros results s; simpl.
  - by rewrite logged_nil, app_nil_r.
  - unfold mbind, M_bind, bind. rewrite executeHook_spec, IH, logged_logged.
    unfold trace. simpl.
    destruct (value plugin) as [v|] eqn:Hv; simpl; [|done].
    rewrite (present_not_null v) by eauto. by rewrite <- app_assoc.
Qed.
End shared_loops.

Lemma sync_value_present hookName args plugin v :
  sync_value hookName args plugin = Some v → present v = true.
Proof.
  unfold sync_value. destruct (hook_outcome _ _ _) as [[r|]|]; try done.
  destruct (instanceof_Promise r); [done|].
  destruct (present r) eqn:Hp; [|done]. by intros [= <-].
Qed.

Lemma async_value_present hookName args plugin v :
  async_value hookName args plugin = Some v → present v = true.
Proof.
  unfold async_value. destruct (hook_outcome _ _ _) as [[r|]|]; try done.
  destruct (settle r) as [x|]; [|done].
  destruct (present x) eqn:Hp; [|done]. by intros [= <-].
Qed.

(** The first-match and collecting loops of [src/systems] compute what the
    loops of [src/index.ts] compute, and write what they write but for the
    advice of the warnings. *)
Lemma first_loop_sync advice hookName args candidates s :
  first_loop (executeHookSync advice) hookName args candidates s
  = Normal (first_value (sync_value hookName args) candidates)
           (logged s (trace (sync_events advice hookName args)
                            (reached (sync_value hookName args) candidates))).
Proof.
  apply first_loop_spec; [|apply sync_value_present].
  intros. apply executeHookSync_spec.
Qed.

Lemma first_loop_async hookName args candidates s :
  first_loop executeHookAsync hookName args candidates s
  = execAsync_loop hookName args candidates s.
Proof.
  rewrite execAsync_loop_spec.
  apply first_loop_spec; [|apply async_value_present].
  intros. apply executeHookAsync_spec.
Qed.

Lemma all_loop_sync advice hookName args candidates results s :
  all_loop (executeHookSync advice) hookName args candidates results s
  = Normal (results ++ omap (sync_value hookName args) candidates)
           (logged s (trace (sync_events advice hookName args) candidates)).
Proof.
  apply all_loop_spec; [|apply sync_value_present].
  intros. apply executeHookSync_spec.
Qed.

(** The advice is all in which the traces of two synchronous strategies
    differ. *)
Lemma sync_events_advice advice advice' hookName args plugin :
  sync_events advice' hookName args plugin
  = with_advice advice' <$> sync_events advice hookName args plugin.
Proof.
  unfold sync_events. destruct (hook_outcome hookName args plugin) as [[v|e]|]; try done.
  by destruct (instanceof_Promise v).
Qed.

Lemma trace_sync_events_advice advice advice' hookName args (candidates : list Plugin) :
  trace (sync_events advice' hookName args) candidates
  = with_advice advice' <$> trace (sync_events advice hookName args) candidates.
Proof.
  unfold trace. induction candidates as [|plugin rest IH]; [done|].
  rewrite !bind_cons, fmap_app, <- IH. by rewrite <- sync_events_advice.
Qed.

Lemma all_loop_async hookName args candidates results s :
  all_loop executeHookAsync hookName args candidates results s
  = Normal (results ++ omap (async_value hookName args) candidates)
           (logged s (trace (async_events hookName args) candidates)).
Proof.
  apply all_loop_spec; [|apply async_value_present].
  intros. apply executeHookAsync_spec.
Qed.

(** ** [execAllAsync] *)

Lemma start_hook_spec hookName args plugin s :
  start_hook hookName args plugin s
  = Normal (pending_of hookName args plugin)
           (logged s (start_events hookName args plugin)).
Proof.
  unfold start_hook, pending_of, start_events.
  hook_cases hookName args plugin.
Qed.

Lemma start_all_spec hookName args candidates s :
  start_all hookName args candidates s
  = Normal (pending_of hookName args <$> candidates)
           (logged s (trace (start_events hookName args) candidates)).
Proof.
  revert s. induction candidates as [|plugin rest IH]; intros s; simpl.
  - by rewrite logged_nil.
  - unfold mbind, M_bind, bind. rewrite start_hook_spec, IH, logged_logged. done.
Qed.

Lemma settle_queue_spec hookName queue results s :
  settle_queue hookName queue results s
  = Normal (written results queue)
           (logged s (queue ≫= λ entry, settle_events hookName entry.2)).
Proof.
  revert results s. induction queue as [|[i promise] rest IH]; intros results s; simpl.
  - by rewrite logged_nil.
  - unfold mbind, M_bind, bind, settle_one, settle_events, final_value. simpl.
    destruct (pend_outcome promise) as [v|e]; munfold; simpl.
    + by rewrite IH.
    + rewrite IH. unfold logged. simpl. by rewrite <- app_assoc.
Qed.

Lemma written_length results queue : length (written results queue) = length results.
Proof.
  revert results. induction queue as [|entry rest IH]; intros results; simpl; [done|].
  unfold written in IH. by rewrite IH, length_insert.
Qed.

Lemma written_other results queue i :
  i ∉ queue.*1 → written results queue !! i = results !! i.
Proof.
  revert results. induction queue as [|[j promise] rest IH]; intros results Hi; simpl;
    [done|].
  rewrite fmap_cons, not_elem_of_cons in Hi. destruct Hi as [Hne Hi].
  unfold written in IH. rewrite IH by done.
  by apply list_lookup_insert_ne.
Qed.

Lemma written_at results queue i promise :
  NoDup queue.*1 → (i, promise) ∈ queue → (i < length results)%nat →
  written results queue !! i = Some (final_value promise).
Proof.
  revert results.
  induction queue as [|[j promise'] rest IH]; intros results Hnd Hin Hlen; simpl.
  - by apply elem_of_nil in Hin.
  - rewrite fmap_cons in Hnd. apply NoDup_cons in Hnd as [Hj Hnd].
    apply elem_of_cons in Hin as [[= <- <-]|Hin].
    + fold (written (<[i := final_value promise]> results) rest).
      rewrite written_other by done. by apply list_lookup_insert_eq.
    + fold (written (<[j := final_value promise']> results) rest).
      apply IH; [done|done|]. by rewrite length_insert.
Qed.

Lemma fst_imap_pair {B} (l : list B) : (imap pair l).*1 = seq 0 (length l).
Proof.
  rewrite fmap_imap. rewrite (imap_ext _ (λ j _, id j)) by done.
  by rewrite imap_seq_0, list_fmap_id.
Qed.

(** In whatever order the promises settle, [Promise.all] yields their
    values in the order of the array. *)
Lemma written_any_order (promises : list Pending) queue :
  queue ≡ₚ imap pair promises →
  written (replicate (length promises) VUndefined) queue = final_value <$> promises.
Proof.
  intros Hperm. apply list_eq. intros i.
  assert (NoDup queue.*1) as Hnd.
  { rewrite Hperm, fst_imap_pair. apply NoDup_seq. }
  rewrite list_lookup_fmap.
  destruct (promises !! i) as [promise|] eqn:Hi; simpl.
  - apply written_at; [done| |].
    + rewrite Hperm. apply list_elem_of_lookup. exists i.
      rewrite list_lookup_imap, Hi. done.
    + rewrite length_replicate. by eapply lookup_lt_Some.
  - apply lookup_ge_None. rewrite written_length, length_replicate.
    by apply lookup_ge_None.
Qed.

Lemma await_all_spec hookName promises s :
  await_all hookName promises s
  = Normal (final_value <$> promises)
           (logged s (settle_order promises ≫= λ entry, settle_events hookName entry.2)).
Proof.
  unfold await_all. rewrite settle_queue_spec. f_equal.
  apply written_any_order. apply Array_sort_perm.
Qed.

Lemma final_value_pending_of hookName args plugin :
  (if present (final_value (pending_of hookName args plugin))
   then Some (final_value (pending_of hookName args plugin)) else None)
  = async_value hookName args plugin.
Proof.
  unfold final_value, pending_of, async_value.
  destruct (hook_outcome hookName args plugin) as [[v|e]|]; simpl; try done.
  by destruct (settle v).
Qed.

Lemma filter_present_final hookName args (candidates : list Plugin) :
  filter (λ result, present result)
         (final_value <$> (pending_of hookName args <$> candidates))
  = omap (async_value hookName args) candidates.
Proof.
  induction candidates as [|plugin rest IH]; [done|].
  rewrite !fmap_cons, filter_cons, IH.
  change (omap (async_value hookName args) (plugin :: rest))
    with (match async_value hookName args plugin with
          | Some v => v :: omap (async_value hookName args) rest
          | None => omap (async_value hookName args) rest
          end).
  rewrite <- final_value_pending_of.
  by destruct (present _) eqn:Hp.
Qed.

Lemma execAllAsync_run_spec hookName args candidates s :
  execAllAsync_run hookName args candidates s
  = Normal (omap (async_value hookName args) candidates)
           (logged s (trace (start_events hookName args) candidates
                      ++ settle_trace hookName args candidates)).
Proof.
  unfold execAllAsync_run. unfold mbind, M_bind, bind.
  rewrite start_all_spec, await_all_spec, logged_logged.
  unfold mret, M_ret, ret. by rewrite filter_present_final.
Qed.

(** ** The diagnostics of [execAllAsync] *)

Lemma sort_insert_fmap {A B} (g : A → B) (cmp : B → B → Z) x (l : list A) :
  g <$> sort_insert (λ a b, cmp (g a) (g b)) x l = sort_insert cmp (g x) (g <$> l).
Proof.
  induction l as [|y l IH]; [done|].
  rewrite fmap_cons. cbn [sort_insert].
  destruct (cmp (g x) (g y) <=? 0); [done|]. by rewrite fmap_cons, IH.
Qed.

Lemma Array_sort_fmap {A B} (g : A → B) (cmp : B → B → Z) (l : list A) :
  g <$> Array_sort (λ a b, cmp (g a) (g b)) l = Array_sort cmp (g <$> l).
Proof.
  unfold Array_sort. induction l as [|x l IH]; [done|].
  rewrite fmap_cons. cbn [foldr]. by rewrite sort_insert_fmap, IH.
Qed.

Lemma snd_imap_pair {B} (l : list B) : (imap pair l).*2 = l.
Proof.
  rewrite fmap_imap. rewrite (imap_ext _ (const id)) by done.
  by rewrite imap_const, list_fmap_id.
Qed.

Lemma snd_settle_order promises :
  (settle_order promises).*2 = Array_sort by_settle_time promises.
Proof.
  unfold settle_order.
  rewrite <- (snd_imap_pair promises) at 2.
  symmetry. rewrite <- (Array_sort_fmap snd by_settle_time). done.
Qed.

Lemma bind_filter_nil {B C} (P : B → Prop) `{!∀ x, Decision (P x)}
    (f : B → list C) (l : list B) :
  (∀ x, ¬ P x → f x = []) → l ≫= f = filter P l ≫= f.
Proof.
  intros Hf. induction l as [|x l IH]; [done|].
  rewrite filter_cons, bind_cons, IH.
  destruct (decide (P x)); [by rewrite bind_cons|]. by rewrite Hf.
Qed.

Lemma by_settle_time_rank a b :
  by_settle_time a b <= 0 ↔ Z.of_nat (pend_time a) <= Z.of_nat (pend_time b).
Proof. unfold by_settle_time. lia. Qed.

(** The diagnostics are those of the promises that reject, by the time at
    which they settle. *)
Lemma settle_trace_rejects hookName args (candidates : list Plugin) :
  settle_trace hookName args candidates
  = Array_sort by_settle_time
      (filter (λ promise, rejects promise) (pending_of hookName args <$> candidates))
    ≫= settle_events hookName.
Proof.
  unfold settle_trace.
  rewrite <- (Array_sort_filter by_settle_time _ by_settle_time_rank).
  rewrite <- (bind_filter_nil (λ promise, rejects promise)).
  - rewrite <- snd_settle_order. by rewrite list_fmap_bind.
  - intros promise. unfold rejects, settle_events.
    by destruct (pend_outcome promise).
Qed.

Lemma rejects_pending_of hookName args plugin :
  rejects (pending_of hookName args plugin)
  = bool_decide (is_Some (async_failure hookName args plugin)).
Proof.
  unfold rejects, pending_of, async_failure.
  destruct (hook_outcome hookName args plugin) as [[v|e]|]; simpl; try done.
  by destruct (settle v).
Qed.

Lemma settle_events_pending_of hookName args plugin :
  settle_events hookName (pending_of hookName args plugin)
  = failure_events hookName args plugin.
Proof.
  unfold settle_events, pending_of, failure_events, async_failure.
  destruct (hook_outcome hookName args plugin) as [[v|e]|]; simpl; try done.
  by destruct (settle v).
Qed.

(** Every failing candidate is diagnosed, once, and nothing else is. *)
Lemma settle_trace_perm hookName args (candidates : list Plugin) :
  settle_trace hookName args candidates
  ≡ₚ candidates ≫= failure_events hookName args.
Proof.
  rewrite settle_trace_rejects.
  rewrite (Array_sort_perm by_settle_time).
  rewrite <- (bind_filter_nil (λ promise, rejects promise)).
  - rewrite list_fmap_bind.
    induction candidates as [|plugin rest IH]; [done|].
    rewrite !bind_cons, IH. simpl. by rewrite settle_events_pending_of.
  - intros promise. unfold rejects, settle_events.
    by destruct (pend_outcome promise).
Qed.

(** ** The methods *)

Lemma resolve_then {A} (loop : list Plugin → M A) hookName s :
  consistent s →
  ∃ pluginsWithHook s1,
    getPluginsWithHook hookName s = Normal pluginsWithHook s1
    ∧ arr_items pluginsWithHook = resolved hookName s
    ∧ consistent s1
    ∧ plugins s1 = plugins s
    ∧ console s1 = console s
    ∧ (pluginsWithHook ← getPluginsWithHook hookName;
       loop (arr_items pluginsWithHook)) s
      = loop (resolved hookName s) s1.
Proof.
  intros Hs.
  destruct (getPluginsWithHook_spec hookName s Hs)
    as (arr & s1 & Hget & Hitems & Hs1 & Hp & Hc & _).
  exists arr, s1. split_and!; try done.
  unfold mbind, M_bind, bind. by rewrite Hget, Hitems.
Qed.

Lemma execAll_guard hookName args candidates s :
  (if bool_decide (length candidates = 0%nat) then mret []
   else execAll_loop hookName args candidates []) s
  = execAll_loop hookName args candidates [] s.
Proof. by destruct candidates. Qed.

Lemma execAllAsync_guard hookName args candidates s :
  (if bool_decide (length candidates = 0%nat) then mret []
   else execAllAsync_run hookName args candidates) s
  = execAllAsync_run hookName args candidates s.
Proof. by destruct candidates. Qed.

Lemma execAll_unguarded hookName args s :
  execAll hookName args s
  = (pluginsWithHook ← getPluginsWithHook hookName;
     execAll_loop hookName args (arr_items pluginsWithHook) []) s.
Proof.
  unfold execAll, mbind, M_bind, bind.
  destruct (getPluginsWithHook hookName s) as [arr s1|]; [|done].
  apply execAll_guard.
Qed.

Lemma execAllAsync_unguarded hookName args s :
  execAllAsync hookName args s
  = (pluginsWithHook ← getPluginsWithHook hookName;
     execAllAsync_run hookName args (arr_items pluginsWithHook)) s.
Proof.
  unfold execAllAsync, mbind, M_bind, bind.
  destruct (getPluginsWithHook hookName s) as [arr s1|]; [|done].
  apply (execAllAsync_guard hookName args (arr_items arr) s1).
Qed.

(** Every call keeps the invariant. *)
Lemma perform_consistent op s : consistent s → consistent (perform op s).
Proof.
  intros Hs. destruct op as [inputs|n| |h|h args|h args|h args|h args]; simpl.
  - by apply use_consistent.
  - by apply remove_consistent.
  - apply clear_consistent.
  - destruct (getPluginsWithHook_spec h s Hs) as (arr & s1 & -> & _ & Hs1 & _).
    done.
  - destruct (resolve_then (exec_loop h args) h s Hs)
      as (arr & s1 & _ & _ & Hs1 & _ & _ & Hrun).
    unfold exec. rewrite Hrun, exec_loop_spec. by apply consistent_logged.
  - destruct (resolve_then (execAsync_loop h args) h s Hs)
      as (arr & s1 & _ & _ & Hs1 & _ & _ & Hrun).
    unfold execAsync. rewrite Hrun, execAsync_loop_spec. by apply consistent_logged.
  - destruct (resolve_then (λ l, execAll_loop h args l []) h s Hs)
      as (arr & s1 & _ & _ & Hs1 & _ & _ & Hrun).
    rewrite execAll_unguarded, Hrun, execAll_loop_spec. by apply consistent_logged.
  - destruct (resolve_then (execAllAsync_run h args) h s Hs)
      as (arr & s1 & _ & _ & Hs1 & _ & _ & Hrun).
    rewrite execAllAsync_unguarded, Hrun, execAllAsync_run_spec.
    by apply consistent_logged.
Qed.

Lemma run_consistent ops s : consistent s → consistent (run ops s).
Proof.
  revert s. induction ops as [|op ops IH]; intros s Hs; simpl; [done|].
  by apply IH, perform_consistent.
Qed.

Lemma history_consistent pluginInputs ops : consistent (history pluginInputs ops).
Proof. apply run_consistent, use_consistent, consistent_fresh. Qed.

(** ** The sorted view *)

Lemma by_priority_rank a b :
  by_priority a b <= 0 ↔ - priority_or_0 a <= - priority_or_0 b.
Proof. unfold by_priority. lia. Qed.

Lemma priority_or_0_default p : priority_or_0 p = default 0 (priority p).
Proof.
  unfold priority_or_0. destruct (priority p) as [n|]; simpl; [|done].
  destruct (Z.eqb_spec n 0); congruence.
Qed.

Lemma StronglySorted_weaken {B} (R1 R2 : relation B) l :
  (∀ a b, R1 a b → R2 a b) → StronglySorted R1 l → StronglySorted R2 l.
Proof.
  intros HR. induction 1 as [|x l Hl IH Hx]; constructor; [done|].
  eapply Forall_impl; [exact Hx|]. apply HR.
Qed.

Lemma sorted_view_perm s : sorted_view s ≡ₚ plugins s.
Proof. apply Array_sort_perm. Qed.

Lemma sorted_view_descending s :
  StronglySorted (λ a b, priority_or_0 b <= priority_or_0 a) (sorted_view s).
Proof.
  eapply StronglySorted_weaken;
    [|apply (Array_sort_sorted by_priority (λ p, - priority_or_0 p) by_priority_rank)].
  simpl. intros. lia.
Qed.

Lemma sorted_view_stable s k :
  filter (λ p, priority_or_0 p = k) (sorted_view s)
  = filter (λ p, priority_or_0 p = k) (plugins s).
Proof.
  pose proof (Array_sort_stable by_priority (λ p, - priority_or_0 p)
                by_priority_rank (- k) (plugins s)) as Hst.
  unfold sorted_view.
  rewrite (list_filter_iff (λ p, priority_or_0 p = k) (λ p, - priority_or_0 p = - k))
    by (intros; lia).
  rewrite Hst. apply list_filter_iff. intros; lia.
Qed.

(** * The claims *)

(** C2.  Whatever was passed to the constructor and whatever calls followed,
    the names of the registered plugins are pairwise different.  A further
    [use] appends to the registered plugins, which stay as they are and
    where they are, the flattened plugins whose name is not yet taken, by a
    registered plugin or by one accepted earlier in the call; it writes one
    duplicate warning for each of the others, in order.  A [use] that a
    throwing factory aborts leaves the object as it was. *)
Theorem names_stay_unique pluginInputs ops more :
  let s := history pluginInputs ops in
  NoDup (name <$> plugins s)
  ∧ match flattenPlugins more s with
    | Normal newPlugins _ =>
        let s' := final_state (use more s) in
        plugins s' = plugins s ++ accepted (name <$> plugins s) newPlugins
        ∧ console s'
          = console s ++ (WarnDuplicate <$> skipped (name <$> plugins s) newPlugins)
        ∧ NoDup (name <$> plugins s')
    | Abrupt _ _ => final_state (use more s) = s
    end.
Proof.
  intros s. pose proof (history_consistent pluginInputs ops) as Hs. fold s in Hs.
  split; [apply Hs|].
  destruct (flattenPlugins_cases more s) as [[new Hf]|[e Hf]]; rewrite Hf.
  - pose proof (use_consistent more s Hs) as Hs'.
    rewrite (use_spec _ _ _ Hf) in *. simpl in *.
    split_and!; [done|done|apply Hs'].
  - by rewrite (use_throws _ _ _ _ Hf).
Qed.

(** C3.  On every object, the resolver and the four dispatchers work on the
    plugins of the sorted view that have the hook: the view is a permutation
    of the registered plugins, by non-increasing priority, in which the
    plugins of one priority are in their order of registration; a plugin
    without priority counts as of priority 0. *)
Theorem sorted_view_is_stable_sort pluginInputs ops hookName args :
  let s := history pluginInputs ops in
  (∃ pluginsWithHook s1,
     getPluginsWithHook hookName s = Normal pluginsWithHook s1
     ∧ arr_items pluginsWithHook = filter (λ p, has_hook hookName p) (sorted_view s)
     ∧ exec hookName args s = exec_loop hookName args (arr_items pluginsWithHook) s1
     ∧ execAll hookName args s
       = execAll_loop hookName args (arr_items pluginsWithHook) [] s1
     ∧ execAsync hookName args s
       = execAsync_loop hookName args (arr_items pluginsWithHook) s1
     ∧ execAllAsync hookName args s
       = execAllAsync_run hookName args (arr_items pluginsWithHook) s1)
  ∧ sorted_view s ≡ₚ plugins s
  ∧ StronglySorted (λ a b, priority_or_0 b <= priority_or_0 a) (sorted_view s)
  ∧ (∀ k, filter (λ p, priority_or_0 p = k) (sorted_view s)
          = filter (λ p, priority_or_0 p = k) (plugins s))
  ∧ (∀ p, priority_or_0 p = default 0 (priority p)).
Proof.
  intros s. pose proof (history_consistent pluginInputs ops) as Hs. fold s in Hs.
  split_and!.
  - destruct (getPluginsWithHook_spec hookName s Hs)
      as (arr & s1 & Hget & Hitems & _).
    exists arr, s1. split_and!; try done.
    + unfold exec, mbind, M_bind, bind. by rewrite Hget.
    + rewrite execAll_unguarded. unfold mbind, M_bind, bind. by rewrite Hget.
    + unfold execAsync, mbind, M_bind, bind. by rewrite Hget.
    + rewrite execAllAsync_unguarded. unfold mbind, M_bind, bind. by rewrite Hget.
  - apply sorted_view_perm.
  - apply sorted_view_descending.
  - apply sorted_view_stable.
  - apply priority_or_0_default.
Qed.

(** ** First match *)

Lemma sync_value_Some hookName args plugin v :
  sync_value hookName args plugin = Some v
  ↔ ∃ body, getHookFunction plugin hookName = VFun body
            ∧ body args = Returns v
            ∧ present v = true
            ∧ instanceof_Promise v = false.
Proof.
  unfold sync_value, hook_outcome. split.
  - destruct (getHookFunction plugin hookName) as [| | | | | |body| |]; try done.
    destruct (body args) as [r|] eqn:Hr; [|done].
    destruct (instanceof_Promise r) eqn:Hi; [done|].
    destruct (present r) eqn:Hp; [|done].
    intros [= <-]. eauto.
  - intros (body & -> & -> & -> & ->). done.
Qed.

Lemma reached_all value (candidates : list Plugin) :
  Forall (λ q, value q = None) candidates → reached value candidates = candidates.
Proof.
  induction 1 as [|q l Hq Hl IH]; simpl; [done|]. by rewrite Hq, IH.
Qed.

Lemma reached_first value (before : list Plugin) plugin after v :
  Forall (λ q, value q = None) before → value plugin = Some v →
  reached value (before ++ plugin :: after) = before ++ [plugin].
Proof.
  intros Hb Hv. induction Hb as [|q l Hq Hl IH]; simpl.
  - by rewrite Hv.
  - by rewrite Hq, IH.
Qed.

Lemma first_value_none value (candidates : list Plugin) :
  Forall (λ q, value q = None) candidates → first_value value candidates = VNull.
Proof.
  induction 1 as [|q l Hq Hl IH]; [done|]. by rewrite first_value_cons_None.
Qed.

Lemma first_value_first value (before : list Plugin) plugin after v :
  Forall (λ q, value q = None) before → value plugin = Some v →
  first_value value (before ++ plugin :: after) = v.
Proof.
  intros Hb Hv. induction Hb as [|q l Hq Hl IH]; simpl.
  - by apply first_value_cons_Some.
  - by rewrite first_value_cons_None.
Qed.

Lemma calls_app e1 e2 : calls (e1 ++ e2) = calls e1 ++ calls e2.
Proof. apply omap_app. Qed.

(** The hooks that a loop calls are those of the candidates it reaches that
    have a hook function, in order. *)
Lemma calls_trace (events : Plugin → list Event) hookName (candidates : list Plugin) :
  (∀ q, calls (events q)
        = if is_function (getHookFunction q hookName) then [name q] else []) →
  calls (trace events candidates)
  = name <$> filter (λ q, is_function (getHookFunction q hookName)) candidates.
Proof.
  intros Hev. induction candidates as [|q l IH]; [done|].
  unfold trace in *. rewrite bind_cons, calls_app, Hev, IH, filter_cons.
  destruct (is_function (getHookFunction q hookName)); simpl; done.
Qed.

Lemma calls_sync_events advice hookName args q :
  calls (sync_events advice hookName args q)
  = if is_function (getHookFunction q hookName) then [name q] else [].
Proof.
  unfold sync_events, hook_outcome.
  destruct (getHookFunction q hookName) as [| | | | | |body| |]; try done.
  destruct (body args) as [v|e]; [|done].
  by destruct (instanceof_Promise v).
Qed.

Lemma calls_async_events hookName args q :
  calls (async_events hookName args q)
  = if is_function (getHookFunction q hookName) then [name q] else [].
Proof.
  unfold async_events, hook_outcome.
  destruct (getHookFunction q hookName) as [| | | | | |body| |]; try done.
  simpl. by destruct (async_failure _ _ _).
Qed.

Lemma calls_start_events hookName args q :
  calls (start_events hookName args q)
  = if is_function (getHookFunction q hookName) then [name q] else [].
Proof.
  unfold start_events, hook_outcome.
  by destruct (getHookFunction q hookName) as [| | | | | |body| |].
Qed.

(** The first-match and collecting methods of the classes of
    [src/systems] against [exec] and [execAll] of [src/index.ts]: the same
    result from the same candidates, and the same console but for the
    advice of the warnings. *)
Lemma first_loop_sync_exec advice hookName args s pluginsWithHook s1 :
  getPluginsWithHook hookName s = Normal pluginsWithHook s1 →
  ∃ v events,
    exec hookName args s = Normal v (logged s1 events)
    ∧ (pluginsWithHook ← getPluginsWithHook hookName;
       first_loop (executeHookSync advice) hookName args (arr_items pluginsWithHook)) s
      = Normal v (logged s1 (with_advice advice <$> events)).
Proof.
  intros Hget. unfold exec, mbind, M_bind, bind. rewrite Hget.
  eexists _, _. split; [apply exec_loop_spec|].
  rewrite first_loop_sync. f_equal. f_equal.
  by rewrite <- trace_sync_events_advice.
Qed.

Lemma all_loop_sync_execAll advice hookName args s pluginsWithHook s1 :
  getPluginsWithHook hookName s = Normal pluginsWithHook s1 →
  ∃ results events,
    execAll hookName args s = Normal results (logged s1 events)
    ∧ (pluginsWithHook ← getPluginsWithHook hookName;
       all_loop (executeHookSync advice) hookName args (arr_items pluginsWithHook) []) s
      = Normal results (logged s1 (with_advice advice <$> events)).
Proof.
  intros Hget. rewrite execAll_unguarded. unfold mbind, M_bind, bind. rewrite Hget.
  eexists _, _. split; [apply execAll_loop_spec|].
  rewrite all_loop_sync. f_equal. f_equal.
  by rewrite <- trace_sync_events_advice.
Qed.

(** C1.  On every object, [exec] goes through the candidates that the
    resolver returns, which are the plugins of the priority-sorted view that
    have the hook, in this order.  If a candidate yields a present result
    and all the candidates before it yield none, [exec] returns this result
    as it is, having called the hook functions of the candidates up to this
    one, in order, and of no later candidate.  If no candidate yields a
    present result, [exec] returns [null], having called them all.  A hook
    that returns [0], the empty string or [false] yields it as a present
    result.  [exec] of [SyncPluginSystem] returns what [exec] returns, and
    writes what [exec] writes but for the advice of its warnings. *)
Theorem exec_returns_first_present pluginInputs ops hookName args :
  let s := history pluginInputs ops in
  ∃ pluginsWithHook s1,
    getPluginsWithHook hookName s = Normal pluginsWithHook s1
    ∧ arr_items pluginsWithHook = filter (λ p, has_hook hookName p) (sorted_view s)
    ∧ (∀ before plugin after v,
         arr_items pluginsWithHook = before ++ plugin :: after →
         Forall (λ q, sync_value hookName args q = None) before →
         sync_value hookName args plugin = Some v →
         ∃ events,
           exec hookName args s = Normal v (logged s1 events)
           ∧ calls events
             = name <$> filter (λ q, is_function (getHookFunction q hookName))
                               (before ++ [plugin]))
    ∧ (Forall (λ q, sync_value hookName args q = None) (arr_items pluginsWithHook) →
       ∃ events,
         exec hookName args s = Normal VNull (logged s1 events)
         ∧ calls events
           = name <$> filter (λ q, is_function (getHookFunction q hookName))
                             (arr_items pluginsWithHook))
    ∧ (∀ plugin body v,
         getHookFunction plugin hookName = VFun body →
         body args = Returns v →
         v = VNum 0 ∨ v = VStr EmptyString ∨ v = VBool false →
         sync_value hookName args plugin = Some v)
    ∧ (∃ v events,
         exec hookName args s = Normal v (logged s1 events)
         ∧ SyncPluginSystem_exec hookName args s
           = Normal v (logged s1 (with_advice UseAsyncPluginSystem <$> events))).
Proof.
  intros s. pose proof (history_consistent pluginInputs ops) as Hs. fold s in Hs.
  destruct (resolve_then (exec_loop hookName args) hookName s Hs)
    as (arr & s1 & Hget & Hitems & _ & _ & _ & Hrun).
  exists arr, s1. split_and!; try done.
  - intros before plugin after v Hsplit Hbefore Hv.
    eexists. unfold exec. rewrite Hrun, exec_loop_spec.
    rewrite <- Hitems, Hsplit.
    rewrite (first_value_first _ _ _ _ _ Hbefore Hv).
    rewrite (reached_first _ _ _ _ _ Hbefore Hv).
    split; [done|]. apply calls_trace, calls_sync_events.
  - intros Hnone. eexists. unfold exec. rewrite Hrun, exec_loop_spec.
    rewrite <- Hitems, (first_value_none _ _ Hnone), (reached_all _ _ Hnone).
    split; [done|]. apply calls_trace, calls_sync_events.
  - intros plugin body v Hf Hr Hv. apply sync_value_Some.
    exists body. destruct Hv as [->|[->| ->]]; done.
  - apply (first_loop_sync_exec UseAsyncPluginSystem _ _ _ _ _ Hget).
Qed.

(** ** Which plugins the resolver admits *)

Lemma is_function_plugin_get plugin hookName :
  is_function (plugin_get plugin hookName) = true →
  plugin_has plugin hookName = true.
Proof.
  unfold plugin_get, plugin_has.
  destruct (String.eqb hookName "name"); [done|].
  destruct (String.eqb hookName "priority").
  { by destruct (priority plugin). }
  destruct (String.eqb hookName "hooks").
  { by destruct (hooks plugin). }
  by destruct (attrs plugin !! hookName).
Qed.

Lemma has_hook_iff hookName plugin :
  has_hook hookName plugin = true
  ↔ (∃ fields, hooks plugin = Some (VObj fields) ∧ is_Some (fields !! hookName))
    ∨ (∃ body, plugin_get plugin hookName = VFun body).
Proof.
  unfold has_hook. rewrite orb_true_iff, <- is_function_VFun.
  split.
  - intros [Hcont|[_ Hdirect]%andb_true_iff]; [left|by right].
    destruct (hooks plugin) as [[| | | | |fields| | |]|]; simpl in Hcont;
      try (by rewrite ?andb_false_r in Hcont).
    exists fields. split; [done|]. by apply bool_decide_eq_true in Hcont.
  - intros [(fields & -> & Hin)|Hdirect].
    + left. simpl. by apply bool_decide_eq_true.
    + right. apply andb_true_iff. split; [by apply is_function_plugin_get|done].
Qed.

Lemma spec_resolvable_has_hook hookName plugin :
  spec_resolvable hookName plugin = true → has_hook hookName plugin = true.
Proof.
  unfold spec_resolvable. rewrite orb_true_iff, has_hook_iff, !is_function_VFun.
  intros [Hdirect|[body Hnested]]; [by right|left].
  destruct (hooks plugin) as [[| | | | |fields| | |]|]; try done.
  exists fields. split; [done|]. simpl in Hnested.
  by destruct (fields !! hookName).
Qed.

(** C4, as amended.  On every object the resolver returns, without error,
    exactly the plugins of the sorted view, in its order, for which the
    [hooks] container is an object that has [hookName] as a key, whatever
    the value under the key, or for which the direct attribute named
    [hookName] is callable.  These include every plugin for which a hook
    implementation is resolvable.  A plugin without [hooks], or whose
    [hooks] is [null] or not an object, is returned only for a callable
    direct attribute. *)
Theorem resolve_filters_sorted_view pluginInputs ops hookName :
  let s := history pluginInputs ops in
  ∃ pluginsWithHook s1,
    getPluginsWithHook hookName s = Normal pluginsWithHook s1
    ∧ arr_items pluginsWithHook = filter (λ p, has_hook hookName p) (sorted_view s)
    ∧ (∀ plugin,
         has_hook hookName plugin = true
         ↔ (∃ fields, hooks plugin = Some (VObj fields) ∧ is_Some (fields !! hookName))
           ∨ (∃ body, plugin_get plugin hookName = VFun body))
    ∧ (∀ plugin, spec_resolvable hookName plugin = true →
                 has_hook hookName plugin = true).
Proof.
  intros s. pose proof (history_consistent pluginInputs ops) as Hs. fold s in Hs.
  destruct (getPluginsWithHook_spec hookName s Hs) as (arr & s1 & Hget & Hitems & _).
  exists arr, s1. split_and!; [done|done| |].
  - apply has_hook_iff.
  - apply spec_resolvable_has_hook.
Qed.

(** ** The identity of the resolved arrays *)

Lemma use_returns pluginInputs s s' :
  use pluginInputs s = Normal tt s' →
  hookCache s' = ∅ ∧ isDirty s' = true ∧ next_id s' = next_id s.
Proof.
  destruct (flattenPlugins_cases pluginInputs s) as [[new Hf]|[e Hf]].
  - rewrite (use_spec _ _ _ Hf). by intros [= <-].
  - by rewrite (use_throws _ _ _ _ Hf).
Qed.

Lemma invalidates_spec op s :
  invalidates op s →
  hookCache (perform op s) = ∅
  ∧ next_id (perform op s) = next_id s.
Proof.
  destruct op as [inputs|n| |h|h args|h args|h args|h args]; simpl; try done.
  - intros [s' Huse]. rewrite Huse. simpl.
    by destruct (use_returns _ _ _ Huse) as (? & ? & ?).
  - intros Hin. by rewrite remove_present.
Qed.

Lemma resolve_twice hookName s :
  consistent s →
  ∃ first s1 second,
    getPluginsWithHook hookName s = Normal first s1
    ∧ getPluginsWithHook hookName s1 = Normal second s1
    ∧ consistent s1
    ∧ (arr_items first ≠ [] → second = first)
    ∧ arr_items second = arr_items first
    ∧ (arr_id first < next_id s1)%nat
    ∧ (arr_id second < next_id s1)%nat.
Proof.
  intros Hs. destruct (hookCache s !! hookName) as [cached|] eqn:Hc.
  - exists cached, s, cached. rewrite (getPluginsWithHook_hit _ _ _ Hc).
    destruct (cache_current _ Hs _ _ Hc) as (_ & Hid & _). done.
  - rewrite (getPluginsWithHook_miss _ _ Hs Hc).
    eexists _, _, (mkArray (next_id s) (resolved hookName s) false).
    split; [done|]. split.
    { apply getPluginsWithHook_hit. simpl. by rewrite lookup_insert_eq. }
    split; [by apply cached_state_consistent|].
    simpl. case_bool_decide as Hempty; simpl; split_and!; try done; try lia.
Qed.

(** What the resolver's cache does give.  On every object, of two
    consecutive calls of the resolver for one hook name the second returns
    the array that the cache holds and changes nothing; it has the
    elements of the first result, and it is the first result itself when
    this one is not empty.  After a [use] that returns, a [remove] of a
    registered name or a [clear], the resolver returns an array allocated
    after both. *)
Lemma resolve_reference_stable pluginInputs ops hookName :
  let s := history pluginInputs ops in
  ∃ first s1 second,
    getPluginsWithHook hookName s = Normal first s1
    ∧ getPluginsWithHook hookName s1 = Normal second s1
    ∧ (arr_items first ≠ [] → second = first)
    ∧ arr_items second = arr_items first
    ∧ (∀ op, invalidates op s1 →
         ∃ third s3,
           getPluginsWithHook hookName (perform op s1) = Normal third s3
           ∧ (arr_id first < arr_id third)%nat
           ∧ (arr_id second < arr_id third)%nat).
Proof.
  intros s. pose proof (history_consistent pluginInputs ops) as Hs. fold s in Hs.
  destruct (resolve_twice hookName s Hs)
    as (first & s1 & second & H1 & H2 & Hs1 & Hsame & Hitems & Hid1 & Hid2).
  exists first, s1, second. split_and!; try done.
  intros op Hop. destruct (invalidates_spec _ _ Hop) as [Hcache Hnext].
  pose proof (perform_consistent op s1 Hs1) as Hs'.
  rewrite (getPluginsWithHook_miss _ _ Hs') by by rewrite Hcache, lookup_empty.
  eexists _, _. split; [done|].
  case_bool_decide; simpl; rewrite Hnext; lia.
Qed.

(** ** Candidates that contribute nothing *)


Lemma trace_app events (l1 l2 : list Plugin) :
  trace events (l1 ++ l2) = trace events l1 ++ trace events l2.
Proof. apply bind_app. Qed.




Section not_callable.
Context (hookName : string) (args : Args) (plugin : Plugin).
Hypothesis not_callable : is_function (getHookFunction plugin hookName) = false.








End not_callable.


(** ** A promise under a synchronous strategy *)




Lemma execAsync_loop_cons_Some hookName args plugin rest v s :
  async_value hookName args plugin = Some v →
  execAsync_loop hookName args (plugin :: rest) s
  = Normal v (logged s (async_events hookName args plugin)).
Proof.
  intros Hv. cbn [execAsync_loop]. unfold mbind, M_bind, bind.
  by rewrite execAsync_body_spec, Hv.
Qed.

Lemma reached_app_none value (before rest : list Plugin) :
  Forall (λ q, value q = None) before →
  reached value (before ++ rest) = before ++ reached value rest.
Proof.
  induction 1 as [|q l Hq Hl IH]; simpl; [done|]. by rewrite Hq, IH.
Qed.

Lemma first_value_app_none value (before rest : list Plugin) :
  Forall (λ q, value q = None) before →
  first_value value (before ++ rest) = first_value value rest.
Proof.
  induction 1 as [|q l Hq Hl IH]; simpl; [done|]. by rewrite first_value_cons_None.
Qed.

Lemma trace_cons events (q : Plugin) (l : list Plugin) :
  trace events (q :: l) = events q ++ trace events l.
Proof. done. Qed.

Lemma omap_cons_Some {B C} (f : B → option C) x y (l : list B) :
  f x = Some y → omap f (x :: l) = y :: omap f l.
Proof. intros Hx. simpl. by rewrite Hx. Qed.

Lemma omap_cons_None {B C} (f : B → option C) x (l : list B) :
  f x = None → omap f (x :: l) = omap f l.
Proof. intros Hx. simpl. by rewrite Hx. Qed.

(** What a first-match loop does when it reaches a candidate. *)
Lemma first_value_reaches value (before : list Plugin) plugin after :
  Forall (λ q, value q = None) before →
  first_value value (before ++ plugin :: after)
  = default (first_value value after) (value plugin).
Proof.
  intros Hb. rewrite (first_value_app_none _ _ _ Hb).
  destruct (value plugin) as [v|] eqn:Hv; simpl.
  - by apply first_value_cons_Some.
  - by apply first_value_cons_None.
Qed.

Lemma reached_reaches value (before : list Plugin) plugin after :
  Forall (λ q, value q = None) before →
  reached value (before ++ plugin :: after)
  = before ++ plugin :: match value plugin with
                         | Some _ => []
                         | None => reached value after
                         end.
Proof.
  intros Hb. rewrite (reached_app_none _ _ _ Hb). simpl.
  by destruct (value plugin).
Qed.

Section one_candidate.
Context (hookName : string) (args : Args) (s : State).
Context (pluginsWithHook : PluginArray) (s1 : State).
Context (before : list Plugin) (plugin : Plugin) (after : list Plugin).
Hypothesis resolves : getPluginsWithHook hookName s = Normal pluginsWithHook s1.
Hypothesis candidates : arr_items pluginsWithHook = before ++ plugin :: after.

Lemma exec_reaches :
  Forall (λ q, sync_value hookName args q = None) before →
  exec hookName args s
  = Normal (default (first_value (sync_value hookName args) after)
                    (sync_value hookName args plugin))
      (logged s1
         (trace (sync_events UseExecAsync hookName args) before
          ++ sync_events UseExecAsync hookName args plugin
          ++ trace (sync_events UseExecAsync hookName args)
               match sync_value hookName args plugin with
               | Some _ => []
               | None => reached (sync_value hookName args) after
               end)).
Proof.
  intros Hb. unfold exec, mbind, M_bind, bind.
  rewrite resolves, candidates, exec_loop_spec.
  rewrite (first_value_reaches _ _ _ _ Hb), (reached_reaches _ _ _ _ Hb).
  by rewrite trace_app, trace_cons.
Qed.

Lemma execAsync_reaches :
  Forall (λ q, async_value hookName args q = None) before →
  execAsync hookName args s
  = Normal (default (first_value (async_value hookName args) after)
                    (async_value hookName args plugin))
      (logged s1
         (trace (async_events hookName args) before
          ++ async_events hookName args plugin
          ++ trace (async_events hookName args)
               match async_value hookName args plugin with
               | Some _ => []
               | None => reached (async_value hookName args) after
               end)).
Proof.
  intros Hb. unfold execAsync, mbind, M_bind, bind.
  rewrite resolves, candidates, execAsync_loop_spec.
  rewrite (first_value_reaches _ _ _ _ Hb), (reached_reaches _ _ _ _ Hb).
  by rewrite trace_app, trace_cons.
Qed.

Lemma execAll_reaches :
  execAll hookName args s
  = Normal (omap (sync_value hookName args) before
            ++ omap (sync_value hookName args) [plugin]
            ++ omap (sync_value hookName args) after)
      (logged s1
         (trace (sync_events UseExecAllAsync hookName args) before
          ++ sync_events UseExecAllAsync hookName args plugin
          ++ trace (sync_events UseExecAllAsync hookName args) after)).
Proof.
  rewrite execAll_unguarded. unfold mbind, M_bind, bind.
  rewrite resolves, candidates, execAll_loop_spec.
  rewrite trace_app, trace_cons, <- !omap_app. done.
Qed.

Lemma execAllAsync_reaches :
  ∃ events,
    execAllAsync hookName args s
    = Normal (omap (async_value hookName args) before
              ++ omap (async_value hookName args) [plugin]
              ++ omap (async_value hookName args) after)
        (logged s1 events).
Proof.
  eexists. rewrite execAllAsync_unguarded. unfold mbind, M_bind, bind.
  rewrite resolves, candidates, execAllAsync_run_spec.
  by rewrite <- !omap_app.
Qed.
End one_candidate.

(** C7, as amended.  In every state, let a candidate that the resolver
    returns have a hook function.  If the hook returns a promise, an
    instance of [Promise], the synchronous strategies do not await it:
    [exec], when it reaches the candidate, and [execAll] call the hook,
    write the warning that names the plugin and the hook, take no result
    from the candidate and go on with the candidates behind it, and
    [executeHook] of [src/systems] returns [null] after the same warning;
    nothing is thrown.  If the hook returns a thenable that is not an
    instance of [Promise], no strategy recognises it: [exec] returns and
    [execAll] collects the thenable itself, without a warning.  Under the
    asynchronous strategies, in both cases, when the returned value
    resolves to a present value, [execAsync], when it reaches the
    candidate, returns this value and [execAllAsync] collects it. *)
Theorem promise_under_sync_dispatch hookName args s :
  ∃ pluginsWithHook s1,
    getPluginsWithHook hookName s = Normal pluginsWithHook s1
    ∧ ∀ before plugin after body returned,
        arr_items pluginsWithHook = before ++ plugin :: after →
        getHookFunction plugin hookName = VFun body →
        body args = Returns returned →
        let misuse advice :=
          [Called (name plugin) hookName; WarnPromise (name plugin) hookName advice] in
        let sync := sync_value hookName args in
        let async := async_value hookName args in
        (instanceof_Promise returned = true →
           (Forall (λ q, sync q = None) before →
              exec hookName args s
              = Normal (first_value sync after)
                  (logged s1
                     (trace (sync_events UseExecAsync hookName args) before
                      ++ misuse UseExecAsync
                      ++ trace (sync_events UseExecAsync hookName args)
                           (reached sync after))))
           ∧ execAll hookName args s
             = Normal (omap sync before ++ omap sync after)
                 (logged s1
                    (trace (sync_events UseExecAllAsync hookName args) before
                     ++ misuse UseExecAllAsync
                     ++ trace (sync_events UseExecAllAsync hookName args) after))
           ∧ (∀ advice s0,
                executeHookSync advice plugin hookName args s0
                = Normal VNull (logged s0 (misuse advice))))
        ∧ (∀ delay fulfils payload,
             returned = VThenable delay fulfils payload →
             (Forall (λ q, sync q = None) before →
                exec hookName args s
                = Normal returned
                    (logged s1
                       (trace (sync_events UseExecAsync hookName args) before
                        ++ [Called (name plugin) hookName])))
             ∧ execAll hookName args s
               = Normal (omap sync before ++ returned :: omap sync after)
                   (logged s1
                      (trace (sync_events UseExecAllAsync hookName args) before
                       ++ [Called (name plugin) hookName]
                       ++ trace (sync_events UseExecAllAsync hookName args) after)))
        ∧ (∀ v,
             instanceof_Promise returned = true
             ∨ (∃ delay fulfils payload, returned = VThenable delay fulfils payload) →
             settle returned = Returns v → present v = true →
             (Forall (λ q, async q = None) before →
                execAsync hookName args s
                = Normal v
                    (logged s1
                       (trace (async_events hookName args) before
                        ++ [Called (name plugin) hookName])))
             ∧ ∃ events,
                 execAllAsync hookName args s
                 = Normal (omap async before ++ v :: omap async after)
                     (logged s1 events)).
Proof.
  destruct (getPluginsWithHook_returns hookName s) as (arr & s1 & Hget).
  exists arr, s1. split; [done|].
  intros before plugin after body returned Hitems Hf Hbody misuse sync async.
  assert (hook_outcome hookName args plugin = Some (Returns returned)) as Hout.
  { unfold hook_outcome. by rewrite Hf, Hbody. }
  split_and!.
  - intros Hpromise.
    assert (sync plugin = None) as Hsv.
    { unfold sync, sync_value. by rewrite Hout, Hpromise. }
    assert (∀ advice, sync_events advice hookName args plugin = misuse advice) as Hse.
    { intros advice. unfold sync_events. by rewrite Hout, Hpromise. }
    split_and!.
    + intros Hb. rewrite (exec_reaches _ _ _ _ _ _ _ _ Hget Hitems Hb).
      fold sync. by rewrite Hsv, Hse.
    + rewrite (execAll_reaches _ _ _ _ _ _ _ _ Hget Hitems).
      fold sync. by rewrite (omap_cons_None _ _ _ Hsv), Hse.
    + intros advice s0. rewrite executeHookSync_spec, Hse.
      fold sync. by rewrite Hsv.
  - intros delay fulfils payload ->.
    assert (sync plugin = Some (VThenable delay fulfils payload)) as Hsv.
    { unfold sync, sync_value. by rewrite Hout. }
    assert (∀ advice, sync_events advice hookName args plugin
                      = [Called (name plugin) hookName]) as Hse.
    { intros advice. unfold sync_events. by rewrite Hout. }
    split.
    + intros Hb. rewrite (exec_reaches _ _ _ _ _ _ _ _ Hget Hitems Hb).
      fold sync. rewrite Hsv, Hse. simpl. by rewrite ?app_nil_r.
    + rewrite (execAll_reaches _ _ _ _ _ _ _ _ Hget Hitems).
      fold sync. by rewrite (omap_cons_Some _ _ _ _ Hsv), Hse.
  - intros v _ Hsettle Hpresent.
    assert (async plugin = Some v) as Hav.
    { unfold async, async_value. by rewrite Hout, Hsettle, Hpresent. }
    assert (async_events hookName args plugin = [Called (name plugin) hookName])
      as Hae.
    { unfold async_events, async_failure. by rewrite Hout, Hsettle. }
    split.
    + intros Hb. rewrite (execAsync_reaches _ _ _ _ _ _ _ _ Hget Hitems Hb).
      fold async. rewrite Hav, Hae. simpl. by rewrite ?app_nil_r.
    + destruct (execAllAsync_reaches hookName args s arr s1 before plugin after
                  Hget Hitems) as [events Hall].
      exists events. rewrite Hall. fold async.
      by rewrite (omap_cons_Some _ _ _ _ Hav).
Qed.

(** ** All results, asynchronously *)

Lemma diagnostics_app e1 e2 : diagnostics (e1 ++ e2) = diagnostics e1 ++ diagnostics e2.
Proof. apply filter_app. Qed.

Lemma diagnostics_start hookName args (candidates : list Plugin) :
  diagnostics (trace (start_events hookName args) candidates) = [].
Proof.
  induction candidates as [|q l IH]; [done|].
  unfold trace in *. rewrite bind_cons, diagnostics_app, IH.
  unfold start_events. by destruct (hook_outcome hookName args q).
Qed.


Lemma calls_failures hookName args (candidates : list Plugin) :
  calls (candidates ≫= failure_events hookName args) = [].
Proof.
  induction candidates as [|q l IH]; [done|].
  rewrite bind_cons, calls_app, IH.
  unfold failure_events. by destruct (async_failure hookName args q).
Qed.




(** ** What can throw *)






(** C9, as amended.  [use] that returns has marked the registry dirty and
    emptied the hook cache, whether or not it accepted a plugin.  [remove]
    of a name that is not registered changes nothing, so that the resolver
    then returns, for a hook name of the cache, the array that the cache
    held; [remove] of a registered name returns with fewer plugins, the
    registry dirty and the cache empty. *)
Theorem invalidation_rules (s : State) :
  (∀ more s', use more s = Normal tt s' → isDirty s' = true ∧ hookCache s' = ∅)
  ∧ (∀ pluginName,
       pluginName ∉ name <$> plugins s →
       remove pluginName s = Normal tt s
       ∧ ∀ hookName cached,
           hookCache s !! hookName = Some cached →
           getPluginsWithHook hookName (final_state (remove pluginName s))
           = Normal cached s)
  ∧ (∀ pluginName,
       pluginName ∈ name <$> plugins s →
       ∃ s', remove pluginName s = Normal tt s'
             ∧ (length (plugins s') < length (plugins s))%nat
             ∧ isDirty s' = true
             ∧ hookCache s' = ∅).
Proof.
  split_and!.
  - intros more s' Huse. by destruct (use_returns _ _ _ Huse) as (? & ? & ?).
  - intros pluginName Hnot. rewrite (remove_absent _ _ Hnot). split; [done|].
    intros hookName cached Hc. by apply getPluginsWithHook_hit.
  - intros pluginName Hin. rewrite (remove_present _ _ Hin).
    eexists. split; [done|]. simpl. split_and!; try done.
    apply list_elem_of_fmap in Hin as (p & -> & Hp).
    apply (length_filter_lt _ _ p); [done|]. by intros ?.
Qed.

(** * Further properties *)

(** ** Registration *)

Lemma flatten_from_pure pluginInputs flattened s :
  Forall (λ input, factory_throws input = None) pluginInputs →
  flatten_from pluginInputs flattened s
  = Normal (flattened ++ (pluginInputs ≫= input_plugins)) s.
Proof.
  intros Hall. revert flattened.
  induction Hall as [|input rest Hin Hrest IH]; intros flattened.
  - simpl. by rewrite app_nil_r.
  - rewrite bind_cons. cbn [flatten_from].
    destruct input as [p|f|ps]; simpl in *.
    + by rewrite IH, <- app_assoc.
    + destruct (f tt); try done; by rewrite IH, <- app_assoc.
    + by rewrite IH, <- app_assoc.
Qed.

Lemma accepted_app taken l1 l2 :
  accepted taken (l1 ++ l2)
  = accepted taken l1 ++ accepted (taken ++ (name <$> accepted taken l1)) l2.
Proof.
  revert taken. induction l1 as [|plugin rest IH]; intros taken; simpl.
  - by rewrite app_nil_r.
  - destruct (decide (name plugin ∈ taken)); [apply IH|].
    rewrite IH, fmap_cons. simpl. by rewrite <- (app_assoc taken [name plugin]).
Qed.

Lemma skipped_app taken l1 l2 :
  skipped taken (l1 ++ l2)
  = skipped taken l1 ++ skipped (taken ++ (name <$> accepted taken l1)) l2.
Proof.
  revert taken. induction l1 as [|plugin rest IH]; intros taken; simpl.
  - by rewrite app_nil_r.
  - destruct (decide (name plugin ∈ taken)); [by rewrite IH|].
    rewrite IH, fmap_cons. by rewrite <- (app_assoc taken [name plugin]).
Qed.

(** [use], in terms of the plugins that its inputs stand for. *)
Lemma use_pure pluginInputs s :
  Forall (λ input, factory_throws input = None) pluginInputs →
  use pluginInputs s
  = Normal tt
      (mkState
         (plugins s ++ accepted (name <$> plugins s) (pluginInputs ≫= input_plugins))
         ∅ (sortedPlugins s) true
         (console s
          ++ (WarnDuplicate
              <$> skipped (name <$> plugins s) (pluginInputs ≫= input_plugins)))
         (next_id s)).
Proof.
  intros Hall. apply use_spec. unfold flattenPlugins.
  by rewrite flatten_from_pure.
Qed.

(** X1.  Registering in two calls is registering in one: when no factory
    throws, [use] of the inputs [first] and then [use] of the inputs [second]
    leave the object in the state in which one [use] of all of them, in this
    order, leaves it, console included. *)
Theorem use_composes first second s :
  Forall (λ input, factory_throws input = None) (first ++ second) →
  (use first;; use second) s = use (first ++ second) s.
Proof.
  intros Hall. apply Forall_app in Hall as [H1 H2].
  unfold mbind, M_bind, bind.
  rewrite (use_pure first s H1), (use_pure second _ H2),
    (use_pure (first ++ second) s) by by apply Forall_app.
  simpl. rewrite bind_app, accepted_app, skipped_app, !fmap_app.
  by rewrite <- !app_assoc.
Qed.

(** X2.  The form of an input does not matter: when no factory throws,
    [use] of any inputs (plugins, arrays of plugins, factories of either)
    does what [use] of the one array of the plugins they stand for, in
    order, does; so that a plugin, the array of it and a factory that
    returns it register alike. *)
Theorem use_flattens pluginInputs s :
  Forall (λ input, factory_throws input = None) pluginInputs →
  use pluginInputs s = use [InArray (pluginInputs ≫= input_plugins)] s
  ∧ ∀ p f,
      f tt = FPlugin p →
      use [InPlugin p] s = use [InArray [p]] s
      ∧ use [InFactory f] s = use [InPlugin p] s.
Proof.
  intros Hall. split.
  - rewrite (use_pure pluginInputs s Hall).
    rewrite (use_pure [InArray _] s) by (repeat constructor).
    simpl. by rewrite app_nil_r.
  - intros p f Hf. split.
    + by rewrite !use_pure by (repeat constructor).
    + rewrite (use_pure [InFactory f]), (use_pure [InPlugin p]).
      * simpl. by rewrite Hf.
      * repeat constructor.
      * repeat constructor. simpl. by rewrite Hf.
Qed.

(** ** Unregistration *)

Lemma remove_state pluginName s :
  final_state (remove pluginName s)
  = if decide (pluginName ∈ name <$> plugins s)
    then mkState (filter (λ p, name p ≠ pluginName) (plugins s)) ∅
                 (sortedPlugins s) true (console s) (next_id s)
    else s.
Proof.
  destruct (decide _) as [Hin|Hin].
  - by rewrite remove_present.
  - by rewrite remove_absent.
Qed.

Lemma names_filter_other (l : list Plugin) n m :
  m ∈ name <$> filter (λ p, name p ≠ n) l ↔ m ∈ name <$> l ∧ m ≠ n.
Proof.
  rewrite !list_elem_of_fmap. split.
  - intros (p & -> & [Hne Hp]%list_elem_of_filter). eauto.
  - intros [(p & -> & Hp) Hne]. exists p. split; [done|].
    by apply list_elem_of_filter.
Qed.

Lemma filter_names_comm (l : list Plugin) n m :
  filter (λ p, name p ≠ m) (filter (λ p, name p ≠ n) l)
  = filter (λ p, name p ≠ n) (filter (λ p, name p ≠ m) l).
Proof.
  induction l as [|p l IH]; [done|].
  rewrite !(filter_cons _ p).
  destruct (decide (name p ≠ n)), (decide (name p ≠ m));
    rewrite ?filter_cons_True, ?filter_cons_False by done;
    rewrite ?filter_cons_True, ?filter_cons_False by done; by rewrite IH.
Qed.

(** X3.  [remove] leaves no plugin of the given name and keeps the others in
    their order; it does not throw.  Removing a name twice is removing it
    once, and two removals can be done in either order: the object ends in
    the same state. *)
Theorem remove_idempotent_commutes pluginName other s :
  let s1 := final_state (remove pluginName s) in
  (pluginName ∉ name <$> plugins s1)
  ∧ plugins s1 = filter (λ p, name p ≠ pluginName) (plugins s)
  ∧ (∀ n, n ≠ pluginName → n ∈ name <$> plugins s → n ∈ name <$> plugins s1)
  ∧ remove pluginName s1 = Normal tt s1
  ∧ final_state (remove other s1)
    = final_state (remove pluginName (final_state (remove other s))).
Proof.
  intros s1.
  assert (plugins s1 = filter (λ p, name p ≠ pluginName) (plugins s)) as Hplugins.
  { unfold s1. rewrite remove_state. destruct (decide _) as [Hin|Hin]; [done|].
    symmetry. apply filter_all, Forall_forall. intros p Hp Heq.
    apply Hin. rewrite <- Heq. apply list_elem_of_fmap. eauto. }
  assert (pluginName ∉ name <$> plugins s1) as Hgone.
  { rewrite Hplugins, names_filter_other. tauto. }
  split_and!; [done|done| | |].
  - intros n Hne Hn. rewrite Hplugins. by apply names_filter_other.
  - by apply remove_absent.
  - unfold s1. rewrite !remove_state. clear s1 Hplugins Hgone.
    destruct (decide (other = pluginName)) as [->|Hne]; [done|].
    destruct (decide (pluginName ∈ name <$> plugins s)) as [Hn|Hn],
             (decide (other ∈ name <$> plugins s)) as [Hm|Hm]; simpl;
      repeat case_decide; simpl;
      rewrite ?names_filter_other in *;
      try (by rewrite filter_names_comm); try done; exfalso; intuition congruence.
Qed.

(** X4.  Registering a plugin under a name that is not taken and removing
    this name gives back the registered plugins as they were, in their
    order. *)
Theorem use_then_remove plugin s :
  name plugin ∉ name <$> plugins s →
  plugins (final_state (remove (name plugin) (final_state (use [InPlugin plugin] s))))
  = plugins s.
Proof.
  intros Hfresh.
  rewrite (use_pure [InPlugin plugin] s) by (repeat constructor). simpl.
  rewrite decide_False by done. simpl.
  rewrite remove_state. simpl.
  rewrite decide_True by (rewrite fmap_app; set_solver).
  simpl. rewrite filter_app, filter_cons_False by (intros H; by apply H).
  change (filter (λ p : Plugin, name p ≠ name plugin) []) with (@nil Plugin).
  rewrite app_nil_r.
  apply filter_all, Forall_forall. intros p Hp Heq.
  apply Hfresh. rewrite <- Heq. apply list_elem_of_fmap. eauto.
Qed.

(** X5.  A name that was removed can be registered again: after [remove] of
    the name of [plugin], [use] of [plugin] accepts it without a warning,
    and it stands last, behind the plugins of other names. *)
Theorem remove_then_use plugin s :
  let s1 := final_state (remove (name plugin) s) in
  ∃ s2,
    use [InPlugin plugin] s1 = Normal tt s2
    ∧ plugins s2 = filter (λ p, name p ≠ name plugin) (plugins s) ++ [plugin]
    ∧ console s2 = console s.
Proof.
  intros s1.
  assert (plugins s1 = filter (λ p, name p ≠ name plugin) (plugins s)
          ∧ console s1 = console s) as [Hplugins Hconsole].
  { unfold s1. rewrite remove_state. destruct (decide _) as [Hin|Hin]; [done|].
    split; [|done]. symmetry. apply filter_all, Forall_forall. intros p Hp Heq.
    apply Hin. rewrite <- Heq. apply list_elem_of_fmap. eauto. }
  rewrite (use_pure [InPlugin plugin] s1) by (repeat constructor).
  eexists. split; [done|]. simpl.
  rewrite !decide_False by (rewrite Hplugins, names_filter_other; tauto).
  simpl. rewrite ?app_nil_r. by rewrite Hplugins, Hconsole.
Qed.

(** ** Clearing *)

(** X6.  [clear] makes the object as new, but for its console: no plugin is
    registered, and a [use] after it leaves the registry, the sorted view,
    the dirty mark and the hook cache as the constructor called with the
    same inputs leaves them, with the same warnings, also when a factory
    throws. *)
Theorem clear_is_as_new pluginInputs s :
  let cleared := final_state (clear s) in
  let built := final_state (constructor pluginInputs) in
  plugins cleared = []
  ∧ hookCache cleared = ∅
  ∧ final_state (use pluginInputs cleared)
    = mkState (plugins built) (hookCache built) (sortedPlugins built)
              (isDirty built) (console s ++ console built) (next_id s).
Proof.
  intros cleared built. unfold cleared, built, constructor.
  rewrite clear_spec. simpl. split_and!; [done|done|].
  destruct (flattenPlugins_cases pluginInputs fresh_state) as [[new Hf]|[e Hf]].
  - assert (∀ s0, flattenPlugins pluginInputs s0 = Normal new s0) as Hany.
    { intros s0. pose proof (flattenPlugins_state pluginInputs s0) as Hs0.
      revert Hf Hs0. unfold flattenPlugins. generalize (@nil Plugin).
      induction pluginInputs as [|input rest IH]; intros acc; simpl.
      - intros [= <-]. done.
      - destruct input as [p|f|ps]; try apply IH.
        destruct (f tt); try apply IH. done. }
    rewrite (use_spec _ new _ (Hany _)), (use_spec _ new _ (Hany _)). done.
  - assert (∀ s0, flattenPlugins pluginInputs s0 = Abrupt e s0) as Hany.
    { intros s0. revert Hf. unfold flattenPlugins. generalize (@nil Plugin).
      induction pluginInputs as [|input rest IH]; intros acc; simpl; [done|].
      destruct input as [p|f|ps]; try apply IH.
      destruct (f tt); try apply IH. by intros [= <-]. }
    rewrite (use_throws _ _ _ _ (Hany _)), (use_throws _ _ _ _ (Hany _)). simpl.
    by rewrite app_nil_r.
Qed.

(** ** What resolving and dispatching leave alone *)

Lemma resolved_sublist hookName s :
  resolved hookName s `sublist_of` sorted_view s.
Proof. apply sublist_filter. Qed.

Lemma resolved_registered hookName s p :
  p ∈ resolved hookName s → p ∈ plugins s.
Proof.
  intros Hp. apply list_elem_of_filter in Hp as [_ Hp].
  by rewrite sorted_view_perm in Hp.
Qed.

Lemma resolved_names_NoDup hookName s :
  consistent s → NoDup (name <$> resolved hookName s).
Proof.
  intros Hs. eapply sublist_NoDup; [|apply fmap_sublist, resolved_sublist].
  rewrite sorted_view_perm. apply Hs.
Qed.

Lemma calls_of_candidates (events : Plugin → list Event) hookName
    (candidates reached_ones : list Plugin) :
  (∀ q, calls (events q)
        = if is_function (getHookFunction q hookName) then [name q] else []) →
  reached_ones `sublist_of` candidates →
  calls (trace events reached_ones) `sublist_of` name <$> candidates.
Proof.
  intros Hev Hsub. rewrite (calls_trace _ hookName) by done.
  apply fmap_sublist. etrans; [apply sublist_filter|done].
Qed.

Lemma reached_prefix value (candidates : list Plugin) :
  reached value candidates `prefix_of` candidates.
Proof.
  induction candidates as [|q l IH]; simpl; [done|].
  destruct (value q).
  - by apply prefix_cons, prefix_nil.
  - by apply prefix_cons.
Qed.

Lemma reached_sublist value (candidates : list Plugin) :
  reached value candidates `sublist_of` candidates.
Proof.
  induction candidates as [|q l IH]; simpl; [constructor|].
  destruct (value q).
  - apply sublist_skip, sublist_nil_l.
  - by apply sublist_skip.
Qed.

Lemma calls_settle_trace hookName args (candidates : list Plugin) :
  calls (settle_trace hookName args candidates) = [].
Proof.
  apply Permutation_nil_r. unfold calls. rewrite settle_trace_perm.
  fold (calls (candidates ≫= failure_events hookName args)).
  by rewrite calls_failures.
Qed.

(** What every resolving or dispatching call does to a consistent object. *)
Lemma dispatch_frame op s :
  consistent s → dispatches op = true →
  plugins (perform op s) = plugins s
  ∧ ∃ events,
      console (perform op s) = console s ++ events
      ∧ calls events `sublist_of` name <$> sorted_view s.
Proof.
  intros Hs Hop.
  destruct op as [inputs|n| |h|h args|h args|h args|h args]; try done; simpl.
  - destruct (getPluginsWithHook_spec h s Hs) as (arr & s1 & -> & _ & _ & Hp & Hc & _).
    simpl. split; [done|]. exists []. rewrite app_nil_r. split; [done|].
    apply sublist_nil_l.
  - destruct (resolve_then (exec_loop h args) h s Hs)
      as (arr & s1 & _ & _ & _ & Hp & Hc & Hrun).
    unfold exec. rewrite Hrun, exec_loop_spec. simpl. split; [done|].
    eexists. split; [by rewrite Hc|].
    etrans; [|apply fmap_sublist, resolved_sublist].
    apply (calls_of_candidates _ h); [apply calls_sync_events|apply reached_sublist].
  - destruct (resolve_then (execAsync_loop h args) h s Hs)
      as (arr & s1 & _ & _ & _ & Hp & Hc & Hrun).
    unfold execAsync. rewrite Hrun, execAsync_loop_spec. simpl. split; [done|].
    eexists. split; [by rewrite Hc|].
    etrans; [|apply fmap_sublist, resolved_sublist].
    apply (calls_of_candidates _ h); [apply calls_async_events|apply reached_sublist].
  - destruct (resolve_then (λ l, execAll_loop h args l []) h s Hs)
      as (arr & s1 & _ & _ & _ & Hp & Hc & Hrun).
    rewrite execAll_unguarded, Hrun, execAll_loop_spec. simpl. split; [done|].
    eexists. split; [by rewrite Hc|].
    etrans; [|apply fmap_sublist, resolved_sublist].
    by apply (calls_of_candidates _ h); [apply calls_sync_events|].
  - destruct (resolve_then (execAllAsync_run h args) h s Hs)
      as (arr & s1 & _ & _ & _ & Hp & Hc & Hrun).
    rewrite execAllAsync_unguarded, Hrun, execAllAsync_run_spec. simpl.
    split; [done|].
    eexists. split; [by rewrite Hc|].
    rewrite calls_app, calls_settle_trace, app_nil_r.
    etrans; [|apply fmap_sublist, resolved_sublist].
    by apply (calls_of_candidates _ h); [apply calls_start_events|].
Qed.

(** X7.  On every object, the resolver and the dispatchers never change the
    registered plugins or their order: [getPlugins] keeps returning the
    plugins in the order of registration, not of priority.  They only add
    lines to the console, and the hooks they call are hooks of registered
    plugins, each called at most once, by non-increasing priority. *)
Theorem dispatch_keeps_registration_order pluginInputs ops op :
  let s := history pluginInputs ops in
  dispatches op = true →
  plugins (perform op s) = plugins s
  ∧ getPlugins (perform op s) = Normal (plugins s) (perform op s)
  ∧ ∃ events,
      console (perform op s) = console s ++ events
      ∧ calls events `sublist_of` name <$> sorted_view s
      ∧ NoDup (calls events)
      ∧ (∀ n, n ∈ calls events → n ∈ name <$> plugins s).
Proof.
  intros s Hop. pose proof (history_consistent pluginInputs ops) as Hs. fold s in Hs.
  destruct (dispatch_frame op s Hs Hop) as (Hp & events & Hc & Hcalls).
  split; [done|]. split.
  { unfold getPlugins. munfold. by rewrite Hp. }
  exists events. split_and!; [done|done| |].
  - eapply sublist_NoDup; [|exact Hcalls].
    rewrite sorted_view_perm. apply Hs.
  - intros n Hn. rewrite <- sorted_view_perm.
    eapply elem_of_sublist; [exact Hn|exact Hcalls].
Qed.

(** X8.  On every object, when no registered plugin has the hook (as on an
    empty registry), [exec] and [execAsync] return [null], [execAll] and
    [execAllAsync] return the empty array, no hook is called and nothing is
    written on the console. *)
Theorem no_plugin_with_hook pluginInputs ops hookName args :
  let s := history pluginInputs ops in
  Forall (λ p, has_hook hookName p = false) (plugins s) →
  ∃ s1,
    console s1 = console s
    ∧ plugins s1 = plugins s
    ∧ returned_items (getPluginsWithHook hookName s) = []
    ∧ exec hookName args s = Normal VNull s1
    ∧ execAsync hookName args s = Normal VNull s1
    ∧ execAll hookName args s = Normal [] s1
    ∧ execAllAsync hookName args s = Normal [] s1.
Proof.
  intros s Hnone. pose proof (history_consistent pluginInputs ops) as Hs. fold s in Hs.
  assert (resolved hookName s = []) as Hempty.
  { apply filter_none. rewrite sorted_view_perm.
    eapply Forall_impl; [exact Hnone|]. simpl. intros p ->. by intros []. }
  destruct (getPluginsWithHook_spec hookName s Hs)
    as (arr & s1 & Hget & Hitems & _ & Hp & Hc & _).
  rewrite Hempty in Hitems.
  exists s1. split_and!; try done.
  - by rewrite Hget.
  - unfold exec, mbind, M_bind, bind. by rewrite Hget, Hitems.
  - unfold execAsync, mbind, M_bind, bind. by rewrite Hget, Hitems.
  - unfold execAll, mbind, M_bind, bind. by rewrite Hget, Hitems.
  - unfold execAllAsync, mbind, M_bind, bind. by rewrite Hget, Hitems.
Qed.

(** X9.  On every object, after [remove] of a name no resolving or
    dispatching call returns or calls a plugin of this name, whatever the
    hook cache held before. *)
Theorem removed_plugin_is_never_called pluginInputs ops pluginName op hookName :
  let s := final_state (remove pluginName (history pluginInputs ops)) in
  dispatches op = true →
  (pluginName ∉ name <$> returned_items (getPluginsWithHook hookName s))
  ∧ ∃ events,
      console (perform op s) = console s ++ events
      ∧ pluginName ∉ calls events.
Proof.
  intros s Hop.
  assert (consistent s) as Hs.
  { apply remove_consistent, history_consistent. }
  assert (pluginName ∉ name <$> plugins s) as Hgone.
  { unfold s. rewrite remove_state. destruct (decide _) as [Hin|Hin]; [|done].
    simpl. rewrite names_filter_other. tauto. }
  split.
  - destruct (getPluginsWithHook_spec hookName s Hs) as (arr & s1 & -> & Hitems & _).
    simpl. rewrite Hitems. intros (p & -> & Hp)%list_elem_of_fmap.
    apply Hgone, list_elem_of_fmap. exists p. split; [done|].
    by eapply resolved_registered.
  - destruct (dispatch_frame op s Hs Hop) as (_ & events & Hc & Hcalls).
    exists events. split; [done|]. intros Hn. apply Hgone.
    rewrite <- sorted_view_perm. eapply elem_of_sublist; [exact Hn|exact Hcalls].
Qed.

(** ** Collecting, and first match under the asynchronous strategy *)

Lemma sync_value_callable hookName args q v :
  sync_value hookName args q = Some v →
  is_function (getHookFunction q hookName) = true.
Proof. intros (body & -> & _)%sync_value_Some. done. Qed.

Lemma async_value_Some hookName args plugin v :
  async_value hookName args plugin = Some v
  ↔ ∃ body r, getHookFunction plugin hookName = VFun body
              ∧ body args = Returns r
              ∧ settle r = Returns v
              ∧ present v = true.
Proof.
  unfold async_value, hook_outcome. split.
  - destruct (getHookFunction plugin hookName) as [| | | | | |body| |]; try done.
    destruct (body args) as [r|] eqn:Hr; [|done].
    destruct (settle r) as [x|] eqn:Hx; [|done].
    destruct (present x) eqn:Hp; [|done].
    intros [= <-]. eauto 10.
  - intros (body & r & -> & -> & -> & ->). done.
Qed.

Lemma omap_length_filter {B C} (f : B → option C) (P : B → Prop)
    `{!∀ x, Decision (P x)} (l : list B) :
  (∀ x y, f x = Some y → P x) →
  (length (omap f l) ≤ length (filter P l))%nat.
Proof.
  intros Hf. induction l as [|x l IH]; [done|].
  rewrite filter_cons.
  change (omap f (x :: l))
    with (match f x with Some y => y :: omap f l | None => omap f l end).
  destruct (f x) as [y|] eqn:Hx.
  - rewrite decide_True by eauto. cbn [length]. lia.
  - destruct (decide (P x)); cbn [length]; lia.
Qed.

(** X10.  On every object, [execAll] calls the hook function of every
    candidate that has one, once each, in the order of the resolver, without
    stopping at a result, and returns the present results in this order:
    there are at most as many as hooks called, and none of them is [null],
    [undefined] or a promise. *)
Theorem execAll_collects_in_order pluginInputs ops hookName args :
  let s := history pluginInputs ops in
  ∃ pluginsWithHook s1 events,
    getPluginsWithHook hookName s = Normal pluginsWithHook s1
    ∧ execAll hookName args s
      = Normal (omap (sync_value hookName args) (arr_items pluginsWithHook))
               (logged s1 events)
    ∧ calls events
      = name <$> filter (λ q, is_function (getHookFunction q hookName))
                        (arr_items pluginsWithHook)
    ∧ NoDup (calls events)
    ∧ (length (omap (sync_value hookName args) (arr_items pluginsWithHook))
       ≤ length (calls events))%nat
    ∧ (∀ v, v ∈ omap (sync_value hookName args) (arr_items pluginsWithHook) →
            present v = true ∧ instanceof_Promise v = false).
Proof.
  intros s. pose proof (history_consistent pluginInputs ops) as Hs. fold s in Hs.
  destruct (resolve_then (λ l, execAll_loop hookName args l []) hookName s Hs)
    as (arr & s1 & Hget & Hitems & _ & _ & _ & Hrun).
  eexists arr, s1, _. split; [done|]. split.
  { rewrite execAll_unguarded, Hrun, execAll_loop_spec. by rewrite Hitems. }
  assert (calls (trace (sync_events UseExecAllAsync hookName args)
                       (resolved hookName s))
          = name <$> filter (λ q, is_function (getHookFunction q hookName))
                            (arr_items arr)) as Hcalls.
  { rewrite Hitems. apply calls_trace, calls_sync_events. }
  split_and!.
  - done.
  - rewrite Hcalls, Hitems. eapply sublist_NoDup;
      [apply (resolved_names_NoDup hookName s Hs)|apply fmap_sublist, sublist_filter].
  - rewrite Hcalls, length_fmap. apply omap_length_filter.
    intros q v Hv. by rewrite (sync_value_callable _ _ _ _ Hv).
  - intros v (q & _ & Hq)%list_elem_of_omap.
    apply sync_value_Some in Hq as (body & _ & _ & Hp & Hi). done.
Qed.

Lemma AsyncPluginSystem_exec_eq hookName args s :
  AsyncPluginSystem_exec hookName args s = execAsync hookName args s.
Proof.
  unfold AsyncPluginSystem_exec, execAsync, mbind, M_bind, bind.
  destruct (getPluginsWithHook hookName s); [|done]. apply first_loop_async.
Qed.

(** X11.  On every object, [execAsync] awaits the candidates one after the
    other, in the order of the resolver.  If a candidate settles with a
    present result and all the candidates before it with none, [execAsync]
    resolves to this result, having called the hook functions up to this
    candidate and no later one; if none settles with a present result, it
    resolves to [null], having called them all.  A candidate settles with a
    present result exactly when its hook returns a value, or a promise that
    fulfils with a value, that is not [null] or [undefined]. *)
Theorem execAsync_returns_first_present pluginInputs ops hookName args :
  let s := history pluginInputs ops in
  ∃ pluginsWithHook s1,
    getPluginsWithHook hookName s = Normal pluginsWithHook s1
    ∧ (∀ before plugin after v,
         arr_items pluginsWithHook = before ++ plugin :: after →
         Forall (λ q, async_value hookName args q = None) before →
         async_value hookName args plugin = Some v →
         ∃ events,
           execAsync hookName args s = Normal v (logged s1 events)
           ∧ calls events
             = name <$> filter (λ q, is_function (getHookFunction q hookName))
                               (before ++ [plugin]))
    ∧ (Forall (λ q, async_value hookName args q = None) (arr_items pluginsWithHook) →
       ∃ events,
         execAsync hookName args s = Normal VNull (logged s1 events)
         ∧ calls events
           = name <$> filter (λ q, is_function (getHookFunction q hookName))
                             (arr_items pluginsWithHook))
    ∧ (∀ plugin v,
         async_value hookName args plugin = Some v
         ↔ ∃ body r, getHookFunction plugin hookName = VFun body
                     ∧ body args = Returns r
                     ∧ settle r = Returns v
                     ∧ present v = true).
Proof.
  intros s. pose proof (history_consistent pluginInputs ops) as Hs. fold s in Hs.
  destruct (resolve_then (execAsync_loop hookName args) hookName s Hs)
    as (arr & s1 & Hget & Hitems & _ & _ & _ & Hrun).
  exists arr, s1. split_and!; try done.
  - intros before plugin after v Hsplit Hbefore Hv.
    eexists. unfold execAsync. rewrite Hrun, execAsync_loop_spec.
    rewrite <- Hitems, Hsplit.
    rewrite (first_value_first _ _ _ _ _ Hbefore Hv).
    rewrite (reached_first _ _ _ _ _ Hbefore Hv).
    split; [done|]. apply calls_trace, calls_async_events.
  - intros Hnone. eexists. unfold execAsync. rewrite Hrun, execAsync_loop_spec.
    rewrite <- Hitems, (first_value_none _ _ Hnone), (reached_all _ _ Hnone).
    split; [done|]. apply calls_trace, calls_async_events.
  - apply async_value_Some.
Qed.

(** ** First match and collecting, side by side *)

Lemma trace_reached_prefix value events (candidates : list Plugin) :
  trace events (reached value candidates) `prefix_of` trace events candidates.
Proof.
  destruct (reached_prefix value candidates) as [k Hk].
  rewrite Hk at 2. rewrite trace_app. by apply prefix_app_r.
Qed.

Lemma with_advice_idemp advice events :
  Forall (λ e, with_advice advice e = e) events → with_advice advice <$> events = events.
Proof.
  induction 1 as [|e l He Hl IH]; [done|]. by rewrite fmap_cons, He, IH.
Qed.

(** X12.  In every state, what [exec] returns is the first element of what
    [execAll] returns, or [null] when that is empty, and what [exec] writes
    on the console is, but for the advice of the promise warnings, which
    is that of [execAll] there, a prefix of what [execAll] writes; likewise
    [execAsync] resolves to the first element of the result of
    [execAllAsync], or [null]. *)
Theorem exec_is_head_of_execAll hookName args s :
  (∃ v s1 events results events',
     exec hookName args s = Normal v (logged s1 events)
     ∧ execAll hookName args s = Normal results (logged s1 events')
     ∧ v = default VNull (head results)
     ∧ (with_advice UseExecAllAsync <$> events) `prefix_of` events')
  ∧ (∃ v s' results s'',
       execAsync hookName args s = Normal v s'
       ∧ execAllAsync hookName args s = Normal results s''
       ∧ v = default VNull (head results)).
Proof.
  destruct (getPluginsWithHook_returns hookName s) as (arr & s1 & Hget).
  split.
  - eexists _, s1, _, _, _. split_and!.
    + unfold exec, mbind, M_bind, bind. rewrite Hget. apply exec_loop_spec.
    + rewrite execAll_unguarded. unfold mbind, M_bind, bind. rewrite Hget.
      apply execAll_loop_spec.
    + done.
    + rewrite <- trace_sync_events_advice. apply trace_reached_prefix.
  - eexists _, _, _, _. split_and!.
    + unfold execAsync, mbind, M_bind, bind. rewrite Hget.
      apply execAsync_loop_spec.
    + rewrite execAllAsync_unguarded. unfold mbind, M_bind, bind. rewrite Hget.
      apply execAllAsync_run_spec.
    + done.
Qed.

(** ** Hooks that return nothing to await *)

Lemma settle_not_thenable v :
  thenable v = false → settle v = Returns v ∧ instanceof_Promise v = false.
Proof. by destruct v. Qed.

Lemma no_promise_same advice hookName args plugin :
  returns_thenable hookName args plugin = false →
  async_value hookName args plugin = sync_value hookName args plugin
  ∧ async_events hookName args plugin = sync_events advice hookName args plugin.
Proof.
  unfold returns_thenable, async_value, sync_value, async_events, sync_events,
    async_failure.
  destruct (hook_outcome hookName args plugin) as [[v|e]|]; try done.
  intros [Hsettle Hpromise]%settle_not_thenable. by rewrite Hsettle, Hpromise.
Qed.

Lemma omap_Forall_ext {B C} (f g : B → option C) (l : list B) :
  Forall (λ x, f x = g x) l → omap f l = omap g l.
Proof.
  induction 1 as [|x l Hx Hl IH]; [done|].
  change (omap f (x :: l))
    with (match f x with Some y => y :: omap f l | None => omap f l end).
  change (omap g (x :: l))
    with (match g x with Some y => y :: omap g l | None => omap g l end).
  by rewrite Hx, IH.
Qed.

Lemma trace_Forall_ext (f g : Plugin → list Event) (l : list Plugin) :
  Forall (λ x, f x = g x) l → trace f l = trace g l.
Proof.
  unfold trace. induction 1 as [|x l Hx Hl IH]; [done|].
  by rewrite !bind_cons, Hx, IH.
Qed.

Lemma reached_Forall_ext (f g : Plugin → option Value) (l : list Plugin) :
  Forall (λ x, f x = g x) l → reached f l = reached g l.
Proof.
  induction 1 as [|x l Hx Hl IH]; [done|]. simpl. by rewrite Hx, IH.
Qed.

Lemma no_promise_candidates advice hookName args s :
  Forall (λ p, returns_thenable hookName args p = false) (plugins s) →
  Forall (λ p, async_value hookName args p = sync_value hookName args p)
         (resolved hookName s)
  ∧ Forall (λ p, async_events hookName args p = sync_events advice hookName args p)
           (resolved hookName s).
Proof.
  intros Hall. split; apply Forall_forall; intros p Hp;
    apply resolved_registered in Hp;
    rewrite Forall_forall in Hall; by apply (no_promise_same advice), Hall.
Qed.

(** X13.  On every object, when no hook of a registered plugin returns,
    for the given arguments, a promise, a thenable or an object with a
    callable [then], the asynchronous strategies do what the synchronous
    ones do: [execAsync] returns the value and leaves the console of
    [exec], [execAll] of [AsyncPluginSystem] those of [execAll], and
    [execAllAsync] resolves to the array that [execAll] returns. *)
Theorem async_agrees_with_sync pluginInputs ops hookName args :
  let s := history pluginInputs ops in
  Forall (λ p, returns_thenable hookName args p = false) (plugins s) →
  execAsync hookName args s = exec hookName args s
  ∧ AsyncPluginSystem_execAll hookName args s = execAll hookName args s
  ∧ ∃ results s' s'',
      execAll hookName args s = Normal results s'
      ∧ execAllAsync hookName args s = Normal results s''.
Proof.
  intros s Hall. pose proof (history_consistent pluginInputs ops) as Hs. fold s in Hs.
  destruct (no_promise_candidates UseExecAsync hookName args s Hall) as [Hvalue Hevents].
  destruct (no_promise_candidates UseExecAllAsync hookName args s Hall)
    as [_ Hevents'].
  destruct (getPluginsWithHook_spec hookName s Hs) as (arr & s1 & Hget & Hitems & _).
  assert (first_value (async_value hookName args) (resolved hookName s)
          = first_value (sync_value hookName args) (resolved hookName s)) as Hfirst.
  { unfold first_value. by rewrite (omap_Forall_ext _ _ _ Hvalue). }
  split_and!.
  - unfold execAsync, exec, mbind, M_bind, bind. rewrite Hget, Hitems.
    rewrite execAsync_loop_spec, exec_loop_spec, Hfirst.
    rewrite (reached_Forall_ext _ _ _ Hvalue).
    rewrite (trace_Forall_ext (async_events hookName args)
               (sync_events UseExecAsync hookName args));
      [done|].
    apply Forall_forall. intros p Hp. rewrite Forall_forall in Hevents.
    apply Hevents. eapply elem_of_sublist; [exact Hp|apply reached_sublist].
  - rewrite execAll_unguarded.
    unfold AsyncPluginSystem_execAll, mbind, M_bind, bind. rewrite Hget, Hitems.
    rewrite all_loop_async, execAll_loop_spec.
    by rewrite (omap_Forall_ext _ _ _ Hvalue), (trace_Forall_ext _ _ _ Hevents').
  - eexists _, _, _. split.
    + rewrite execAll_unguarded. unfold mbind, M_bind, bind. rewrite Hget, Hitems.
      apply execAll_loop_spec.
    + rewrite execAllAsync_unguarded. unfold mbind, M_bind, bind.
      rewrite Hget, Hitems, execAllAsync_run_spec.
      by rewrite (omap_Forall_ext _ _ _ Hvalue).
Qed.

(** ** The class family of [src/systems] *)

(** X14.  The classes of [src/systems] and the class of [src/index.ts]
    agree but for the advice of the promise warnings.  In every state,
    [exec] and [execAll] of [SyncPluginSystem] and of the hybrid class
    return what [exec] and [execAll] of [src/index.ts] return, leave the
    same cache, and write the same lines on the console, where each
    warning about a promise ends in the advice of the class: [Use
    AsyncPluginSystem instead.] and [Use execAsync/execAllAsync instead.];
    so that the consoles are equal when no warning is written.  [exec] of
    [AsyncPluginSystem] and [execAsync] of the hybrid class complete as
    [execAsync] of [src/index.ts] does, console included. *)
Theorem systems_agree_with_index hookName args s :
  (∃ v s1 events,
     exec hookName args s = Normal v (logged s1 events)
     ∧ SyncPluginSystem_exec hookName args s
       = Normal v (logged s1 (with_advice UseAsyncPluginSystem <$> events))
     ∧ PluginSystem_exec hookName args s
       = Normal v (logged s1 (with_advice UseExecAsyncOrExecAllAsync <$> events))
     ∧ ((∀ plugin hook advice, WarnPromise plugin hook advice ∉ events) →
        SyncPluginSystem_exec hookName args s = exec hookName args s
        ∧ PluginSystem_exec hookName args s = exec hookName args s))
  ∧ (∃ results s1 events,
       execAll hookName args s = Normal results (logged s1 events)
       ∧ SyncPluginSystem_execAll hookName args s
         = Normal results (logged s1 (with_advice UseAsyncPluginSystem <$> events))
       ∧ PluginSystem_execAll hookName args s
         = Normal results
             (logged s1 (with_advice UseExecAsyncOrExecAllAsync <$> events))
       ∧ ((∀ plugin hook advice, WarnPromise plugin hook advice ∉ events) →
          SyncPluginSystem_execAll hookName args s = execAll hookName args s
          ∧ PluginSystem_execAll hookName args s = execAll hookName args s))
  ∧ AsyncPluginSystem_exec hookName args s = execAsync hookName args s
  ∧ PluginSystem_execAsync hookName args s = execAsync hookName args s.
Proof.
  destruct (getPluginsWithHook_returns hookName s) as (arr & s1 & Hget).
  assert (∀ advice (events : list Event),
            (∀ plugin hook advice', WarnPromise plugin hook advice' ∉ events) →
            with_advice advice <$> events = events) as Hquiet.
  { intros advice events Hno. apply with_advice_idemp, Forall_forall.
    intros [| | |] He; try done. by apply Hno in He. }
  split_and!.
  - destruct (first_loop_sync_exec UseAsyncPluginSystem hookName args s arr s1 Hget)
      as (v & events & Hexec & Hsync).
    destruct (first_loop_sync_exec UseExecAsyncOrExecAllAsync hookName args s arr s1
                Hget) as (v' & events' & Hexec' & Hhybrid).
    rewrite Hexec in Hexec'. injection Hexec' as <- Hev.
    apply app_inv_head in Hev as <-.
    exists v, s1, events. split_and!; [done|exact Hsync|exact Hhybrid|].
    intros Hno. rewrite Hquiet in Hsync, Hhybrid by done.
    by rewrite Hexec.
  - destruct (all_loop_sync_execAll UseAsyncPluginSystem hookName args s arr s1 Hget)
      as (results & events & Hall & Hsync).
    destruct (all_loop_sync_execAll UseExecAsyncOrExecAllAsync hookName args s arr s1
                Hget) as (results' & events' & Hall' & Hhybrid).
    rewrite Hall in Hall'. injection Hall' as <- Hev.
    apply app_inv_head in Hev as <-.
    exists results, s1, events. split_and!; [done|exact Hsync|exact Hhybrid|].
    intros Hno. rewrite Hquiet in Hsync, Hhybrid by done.
    by rewrite Hall.
  - apply AsyncPluginSystem_exec_eq.
  - apply AsyncPluginSystem_exec_eq.
Qed.

(** X15.  The two [execAllAsync] differ in the console only.  In every
    state they resolve to the same array, call the same hooks in the same
    order and write the same errors; but [src/index.ts] has called every
    hook before the first error is written and writes the errors in the
    order in which the promises settle, where the hybrid class of
    [src/systems] writes the error of a candidate before it calls the next
    hook. *)
Theorem execAllAsync_sequential_or_not hookName args s :
  ∃ pluginsWithHook s1,
    getPluginsWithHook hookName s = Normal pluginsWithHook s1
    ∧ execAllAsync hookName args s
      = Normal (omap (async_value hookName args) (arr_items pluginsWithHook))
               (logged s1 (trace (start_events hookName args) (arr_items pluginsWithHook)
                           ++ settle_trace hookName args (arr_items pluginsWithHook)))
    ∧ PluginSystem_execAllAsync hookName args s
      = Normal (omap (async_value hookName args) (arr_items pluginsWithHook))
               (logged s1 (trace (async_events hookName args)
                                 (arr_items pluginsWithHook)))
    ∧ diagnostics (trace (start_events hookName args) (arr_items pluginsWithHook)) = []
    ∧ calls (settle_trace hookName args (arr_items pluginsWithHook)) = []
    ∧ calls (trace (start_events hookName args) (arr_items pluginsWithHook))
      = calls (trace (async_events hookName args) (arr_items pluginsWithHook))
    ∧ settle_trace hookName args (arr_items pluginsWithHook)
      ≡ₚ diagnostics (trace (async_events hookName args) (arr_items pluginsWithHook))
    ∧ (∀ plugin, async_events hookName args plugin
                 = start_events hookName args plugin
                   ++ failure_events hookName args plugin).
Proof.
  destruct (getPluginsWithHook_returns hookName s) as (arr & s1 & Hget).
  exists arr, s1. split; [done|].
  assert (∀ plugin, async_events hookName args plugin
                    = start_events hookName args plugin
                      ++ failure_events hookName args plugin) as Hsplit.
  { intros plugin. unfold async_events, start_events, failure_events.
    unfold async_failure at 2.
    destruct (hook_outcome hookName args plugin) as [[v|e]|] eqn:Hout; try done.
    - unfold async_failure. by rewrite Hout.
    - unfold async_failure. by rewrite Hout. }
  split_and!.
  - rewrite execAllAsync_unguarded. unfold mbind, M_bind, bind. rewrite Hget.
    apply execAllAsync_run_spec.
  - unfold PluginSystem_execAllAsync, AsyncPluginSystem_execAll, mbind, M_bind, bind.
    rewrite Hget. apply all_loop_async.
  - apply diagnostics_start.
  - apply calls_settle_trace.
  - rewrite !(calls_trace _ hookName);
      [done|apply calls_async_events|apply calls_start_events].
  - rewrite settle_trace_perm.
    induction (arr_items arr) as [|q l IH]; [done|].
    unfold trace in *. rewrite !bind_cons, diagnostics_app, <- IH, Hsplit.
    rewrite diagnostics_app.
    assert (diagnostics (start_events hookName args q) = []) as ->.
    { unfold start_events. by destruct (hook_outcome hookName args q). }
    assert (diagnostics (failure_events hookName args q)
            = failure_events hookName args q) as ->.
    { unfold failure_events. by destruct (async_failure hookName args q). }
    done.
  - exact Hsplit.
Qed.

(** ** What the resolver returns *)

Lemma StronglySorted_filter {B} (R : relation B) (P : B → Prop)
    `{!∀ x, Decision (P x)} (l : list B) :
  StronglySorted R l → StronglySorted R (filter P l).
Proof.
  induction 1 as [|x l Hl IH Hx]; [constructor|].
  rewrite filter_cons. destruct (decide (P x)); [|done].
  constructor; [done|].
  apply Forall_forall. intros y [_ Hy]%list_elem_of_filter.
  rewrite Forall_forall in Hx. by apply Hx.
Qed.

Lemma filter_filter_comm {B} (P Q : B → Prop)
    `{!∀ x, Decision (P x), !∀ x, Decision (Q x)} (l : list B) :
  filter P (filter Q l) = filter Q (filter P l).
Proof.
  rewrite !list_filter_filter. apply list_filter_iff. intros; tauto.
Qed.

(** X16.  On every object, the plugins that the resolver returns for a
    hook name are registered plugins with pairwise different names, every
    registered plugin that has the hook is among them, and they come by
    non-increasing priority, those of one priority in their order of
    registration. *)
Theorem resolver_result_is_sorted pluginInputs ops hookName :
  let s := history pluginInputs ops in
  let items := returned_items (getPluginsWithHook hookName s) in
  StronglySorted (λ a b, priority_or_0 b <= priority_or_0 a) items
  ∧ NoDup (name <$> items)
  ∧ (∀ p, p ∈ items ↔ p ∈ plugins s ∧ has_hook hookName p = true)
  ∧ (∀ k, filter (λ p, priority_or_0 p = k) items
          = filter (λ p, priority_or_0 p = k)
                   (filter (λ p, has_hook hookName p) (plugins s))).
Proof.
  intros s items. pose proof (history_consistent pluginInputs ops) as Hs. fold s in Hs.
  assert (items = resolved hookName s) as ->.
  { unfold items.
    by destruct (getPluginsWithHook_spec hookName s Hs) as (arr & s1 & -> & Hitems & _). }
  split_and!.
  - apply StronglySorted_filter, sorted_view_descending.
  - by apply resolved_names_NoDup.
  - intros p. unfold resolved. rewrite list_elem_of_filter, sorted_view_perm.
    split; intros [? ?]; split; try done; by apply Is_true_true.
  - intros k. unfold resolved.
    by rewrite filter_filter_comm, sorted_view_stable, filter_filter_comm.
Qed.

(** X17.  On every object, a plugin that [use] accepts is returned by the
    next call of the resolver for each hook that it has, whatever the hook
    cache held: the resolver then returns this plugin and the plugins that
    it returned before, and the new plugin stands last among those of its
    priority. *)
Theorem accepted_plugin_is_resolved pluginInputs ops plugin hookName :
  let s := history pluginInputs ops in
  let s' := final_state (use [InPlugin plugin] s) in
  name plugin ∉ name <$> plugins s →
  has_hook hookName plugin = true →
  (∀ q, q ∈ returned_items (getPluginsWithHook hookName s')
        ↔ q = plugin ∨ q ∈ returned_items (getPluginsWithHook hookName s))
  ∧ filter (λ p, priority_or_0 p = priority_or_0 plugin)
           (returned_items (getPluginsWithHook hookName s'))
    = filter (λ p, priority_or_0 p = priority_or_0 plugin)
             (returned_items (getPluginsWithHook hookName s))
      ++ [plugin].
Proof.
  intros s s' Hfresh Hhook.
  pose proof (history_consistent pluginInputs ops) as Hs. fold s in Hs.
  assert (consistent s') as Hs' by by apply use_consistent.
  assert (plugins s' = plugins s ++ [plugin]) as Hplugins.
  { unfold s'. rewrite (use_pure [InPlugin plugin] s) by (repeat constructor).
    simpl. by rewrite decide_False. }
  assert (returned_items (getPluginsWithHook hookName s) = resolved hookName s) as ->.
  { by destruct (getPluginsWithHook_spec hookName s Hs) as (arr & s1 & -> & Hitems & _). }
  assert (returned_items (getPluginsWithHook hookName s') = resolved hookName s') as ->.
  { by destruct (getPluginsWithHook_spec hookName s' Hs') as (arr & s1 & -> & Hitems & _). }
  split.
  - intros q. unfold resolved.
    rewrite !list_elem_of_filter, !sorted_view_perm, Hplugins, elem_of_app,
      list_elem_of_singleton.
    split.
    + intros [Hq [Hin| ->]]; [right|left]; done.
    + intros [->|[Hq Hin]]; split; try done; [by apply Is_true_true|by right|by left].
  - unfold resolved.
    rewrite !(filter_filter_comm _ (λ p, has_hook hookName p)), !sorted_view_stable.
    rewrite Hplugins, !filter_app.
    rewrite (filter_cons_True _ plugin) by done.
    rewrite (filter_cons_True _ plugin) by by apply Is_true_true.
    done.
Qed.

(** ** Direct attributes and the [hooks] container *)




End Plugify.

Arguments Value : clear implicits.
Arguments Outcome : clear implicits.
Arguments Plugin : clear implicits.
Arguments FactoryResult : clear implicits.
Arguments PluginInput : clear implicits.
Arguments Event : clear implicits.
Arguments PluginArray : clear implicits.
Arguments State : clear implicits.
Arguments Completion : clear implicits.
Arguments Flow : clear implicits.
Arguments Pending : clear implicits.
Arguments M : clear implicits.
Arguments Normal {Args A} a s.
Arguments Abrupt {Args A} e s.

(** * The claims on concrete objects

    The hooks below take one number as their argument list. *)

(** [{ name: 'numeric', hooks: { onInit: 5 } }] *)
Local Abbreviation numeric_entry :=
  (mkPlugin (Args := Z) "numeric" None (Some (VObj {[ "onInit" := VNum 5 ]})) ∅).

(** C4, as stated, fails: a plugin whose only association with [onInit] is
    the number 5 inside [hooks] is returned by the resolver, although no
    hook implementation is resolvable for it. *)
Lemma resolve_admits_non_callable_entry :
  returned_items (getPluginsWithHook "onInit" (history [InPlugin numeric_entry] []))
  = [numeric_entry]
  ∧ filter (λ p, spec_resolvable "onInit" p)
           (sorted_view (history [InPlugin numeric_entry] []))
    = [].
Proof. split; vm_compute; reflexivity. Qed.

(** C5 fails on the code.  On [new PluginSystem([])], three calls of the
    resolver for [onInit] with nothing in between: the first, which misses
    the cache, returns a new frozen empty array; the second and the third,
    which hit it, return the empty array that the first call stored, which
    is another object than the first result and is not frozen. *)
Lemma empty_result_not_reference_stable :
  ∃ first s1 second s2 third s3,
    getPluginsWithHook "onInit" (history (Args := Z) [] []) = Normal first s1
    ∧ getPluginsWithHook "onInit" s1 = Normal second s2
    ∧ getPluginsWithHook "onInit" s2 = Normal third s3
    ∧ arr_items first = []
    ∧ arr_items second = []
    ∧ arr_id first ≠ arr_id second
    ∧ arr_frozen first = true
    ∧ arr_frozen second = false
    ∧ third = second.
Proof.
  eexists _, _, _, _, _, _.
  split; [vm_compute; reflexivity|].
  split; [vm_compute; reflexivity|].
  split; [vm_compute; reflexivity|].
  split_and!; simpl; done.
Qed.

(** A factory that throws. *)
Local Abbreviation failing_factory :=
  (InFactory (Args := Z) (λ _, FThrows (VStr "factory failed"))).


(** [{ name: 'test', onInit: (value) => value }] *)
Local Abbreviation init_plugin :=
  (mkPlugin (Args := Z) "test" None None
     {[ "onInit" := VFun (λ v, Returns (VNum v)) ]}).

(** C9, as stated, fails: a [use] whose only plugin is skipped as a
    duplicate empties the hook cache, and the resolver then returns an
    array that is not the one it had cached. *)
Lemma duplicate_use_clears_cache :
  ∃ cached s1 again s2,
    getPluginsWithHook "onInit" (history [InPlugin init_plugin] []) = Normal cached s1
    ∧ hookCache s1 !! "onInit" = Some cached
    ∧ plugins (perform (OpUse [InPlugin init_plugin]) s1) = plugins s1
    ∧ hookCache (perform (OpUse [InPlugin init_plugin]) s1) !! "onInit" = None
    ∧ getPluginsWithHook "onInit" (perform (OpUse [InPlugin init_plugin]) s1)
      = Normal again s2
    ∧ arr_id again ≠ arr_id cached.
Proof.
  eexists _, _, _, _.
  split; [vm_compute; reflexivity|].
  split; [vm_compute; reflexivity|].
  split; [vm_compute; reflexivity|].
  split; [vm_compute; reflexivity|].
  split; [vm_compute; reflexivity|].
  simpl. done.
Qed.

(** [{ name: 'async', onInit: async (value) => 'async' }] *)
Local Abbreviation async_plugin :=
  (mkPlugin (Args := Z) "async" None None
     {[ "onInit" := VFun (λ _, Returns (VPromise 0 true (VStr "async"))) ]}).

(** C7, as amended, on the plugin of the test suite: [exec] warns and
    returns [null], [execAsync] returns the value of the promise. *)
Lemma promise_under_sync_dispatch_witness :
  ∃ s1,
    exec "onInit" 7 (history [InPlugin async_plugin] [])
    = Normal VNull
        (logged s1 [Called "async" "onInit"; WarnPromise "async" "onInit" UseExecAsync])
    ∧ execAsync "onInit" 7 (history [InPlugin async_plugin] [])
      = Normal (VStr "async") (logged s1 [Called "async" "onInit"]).
Proof.
  destruct (promise_under_sync_dispatch (Args := Z) "onInit" 7
              (history [InPlugin async_plugin] []))
    as (arr & s1 & Hget & Hstep).
  assert (arr_items arr = [] ++ async_plugin :: []) as Hitems.
  { revert Hget. vm_compute. intros [= <- _]. reflexivity. }
  assert (getHookFunction async_plugin "onInit"
          = VFun (λ _, Returns (VPromise 0 true (VStr "async")))) as Hhook
    by (vm_compute; reflexivity).
  pose proof (Hstep [] async_plugin [] _ _ Hitems Hhook eq_refl) as Hcase.
  cbv zeta in Hcase. destruct Hcase as (Hpromise & _ & Hasync).
  destruct (Hpromise eq_refl) as (Hexec & _).
  destruct (Hasync (VStr "async") (or_introl eq_refl) eq_refl eq_refl)
    as (HexecAsync & _).
  exists s1. split.
  - rewrite Hexec by constructor. reflexivity.
  - rewrite HexecAsync by constructor. reflexivity.
Defined.

(** [{ name: 'deferred', onInit: () => ({ then: (resolve) => resolve(42) }) }] *)
Local Abbreviation deferred :=
  (mkPlugin (Args := Z) "deferred" None None
     {[ "onInit" := VFun (λ _, Returns (VThenable 0 true (VNum 42))) ]}).

(** C7, as stated, fails: the hook of this plugin returns a promise-like
    value, which [execAsync] awaits; yet [exec] writes no warning and does
    not treat the result as absent: it returns the thenable. *)
Lemma thenable_is_not_diagnosed :
  ∃ s' s'',
    thenable (VThenable (Args := Z) 0 true (VNum 42)) = true
    ∧ exec "onInit" 7 (history [InPlugin deferred] [])
      = Normal (VThenable 0 true (VNum 42)) s'
    ∧ console s' = [Called "deferred" "onInit"]
    ∧ execAll "onInit" 7 (history [InPlugin deferred] [])
      = Normal [VThenable 0 true (VNum 42)] s'
    ∧ execAsync "onInit" 7 (history [InPlugin deferred] []) = Normal (VNum 42) s''.
Proof.
  eexists _, _.
  split; [reflexivity|].
  split; [vm_compute; reflexivity|].
  split; [vm_compute; reflexivity|].
  split; [vm_compute; reflexivity|].
  vm_compute; reflexivity.
Qed.


(** Three plugins for [onInit]: the first returns [null], the second [0],
    the third a string. *)
Local Abbreviation declines :=
  (mkPlugin (Args := Z) "declines" (Some 5) None
     {[ "onInit" := VFun (λ _, Returns VNull) ]}).
Local Abbreviation zero :=
  (mkPlugin (Args := Z) "zero" None None
     {[ "onInit" := VFun (λ _, Returns (VNum 0)) ]}).
Local Abbreviation late :=
  (mkPlugin (Args := Z) "late" None None
     {[ "onInit" := VFun (λ _, Returns (VStr "late")) ]}).

(** C1, on these: [exec] calls the first two hooks and returns [0]. *)
Lemma exec_returns_first_present_witness :
  ∃ s1 events,
    exec "onInit" 7 (history [InPlugin zero; InPlugin late; InPlugin declines] [])
    = Normal (VNum 0) (logged s1 events)
    ∧ calls events = ["declines"; "zero"].
Proof.
  destruct (exec_returns_first_present (Args := Z)
              [InPlugin zero; InPlugin late; InPlugin declines] [] "onInit" 7)
    as (arr & s1 & _ & Hitems & Hfirst & _).
  assert (filter (λ p, has_hook "onInit" p)
            (sorted_view (history [InPlugin zero; InPlugin late; InPlugin declines] []))
          = [declines] ++ zero :: [late]) as Hview by (vm_compute; reflexivity).
  rewrite Hview in Hitems.
  assert (Forall (λ q, sync_value "onInit" 7 q = None) [declines]) as Hbefore.
  { constructor; [vm_compute; reflexivity|constructor]. }
  assert (sync_value "onInit" 7 zero = Some (VNum 0)) as Hzero
    by (vm_compute; reflexivity).
  destruct (Hfirst [declines] zero [late] (VNum 0) Hitems Hbefore Hzero)
    as (events & Hexec & Hcalls).
  exists s1, events. split; [exact Hexec|].
  rewrite Hcalls. vm_compute. reflexivity.
Defined.

(** Two plugins of one name. *)
Local Abbreviation x1 := (mkPlugin (Args := Z) "x" (Some 1) None ∅).
Local Abbreviation x2 := (mkPlugin (Args := Z) "x" (Some 2) None ∅).

(** C2, on these: the second is skipped with a warning, the first stays. *)
Lemma names_stay_unique_witness :
  plugins (final_state (use [InPlugin x2] (history [InPlugin x1] []))) = [x1]
  ∧ console (final_state (use [InPlugin x2] (history [InPlugin x1] [])))
    = [WarnDuplicate "x"].
Proof.
  destruct (names_stay_unique (Args := Z) [InPlugin x1] [] [InPlugin x2])
    as [_ Huse].
  assert (flattenPlugins [InPlugin x2] (history [InPlugin x1] [])
          = Normal [x2] (history [InPlugin x1] [])) as Hflat
    by (vm_compute; reflexivity).
  rewrite Hflat in Huse. destruct Huse as (Hplugins & Hconsole & _).
  split.
  - rewrite Hplugins. vm_compute. reflexivity.
  - rewrite Hconsole. vm_compute. reflexivity.
Defined.

(** The plugins of the priority test. *)
Local Abbreviation low := (mkPlugin (Args := Z) "low" (Some 1) None ∅).
Local Abbreviation high := (mkPlugin (Args := Z) "high" (Some 10) None ∅).
Local Abbreviation none := (mkPlugin (Args := Z) "none" None None ∅).

(** C3, on these: the view is high, low, none. *)
Lemma sorted_view_is_stable_sort_witness :
  sorted_view (history [InPlugin low; InPlugin high; InPlugin none] [])
  = [high; low; none]
  ∧ StronglySorted (λ a b, priority_or_0 b <= priority_or_0 a) [high; low; none].
Proof.
  destruct (sorted_view_is_stable_sort (Args := Z)
              [InPlugin low; InPlugin high; InPlugin none] [] "onInit" 7)
    as (_ & _ & Hsorted & _).
  assert (sorted_view (history [InPlugin low; InPlugin high; InPlugin none] [])
          = [high; low; none]) as Hview by (vm_compute; reflexivity).
  rewrite Hview in Hsorted. split; [exact Hview|exact Hsorted].
Defined.

(** C4, as amended, on the plugin with [onInit] only: it is returned for
    [onInit] and not for [onProcess]. *)
Lemma resolve_filters_sorted_view_witness :
  returned_items (getPluginsWithHook "onInit" (history [InPlugin init_plugin] []))
  = [init_plugin]
  ∧ returned_items (getPluginsWithHook "onProcess" (history [InPlugin init_plugin] []))
    = [].
Proof.
  destruct (resolve_filters_sorted_view (Args := Z) [InPlugin init_plugin] [] "onInit")
    as (arr & s1 & Hget & Hitems & _).
  destruct (resolve_filters_sorted_view (Args := Z) [InPlugin init_plugin] [] "onProcess")
    as (arr' & s1' & Hget' & Hitems' & _).
  rewrite Hget, Hget'. simpl. rewrite Hitems, Hitems'.
  split; vm_compute; reflexivity.
Defined.

(** The plugins of the error handling example. *)
Local Abbreviation faulty :=
  (mkPlugin (Args := Z) "faulty" None None
     {[ "onProcess" := VFun (λ _, Throws (VStr "Something went wrong")) ]}).
Local Abbreviation backup :=
  (mkPlugin (Args := Z) "backup" None None
     {[ "onProcess" := VFun (λ _, Returns (VStr "backup")) ]}).


(** The plugins of the aggregation example: the first resolves later than
    the second, and one in between rejects. *)
Local Abbreviation slow :=
  (mkPlugin (Args := Z) "slow" None None
     {[ "onComplete" := VFun (λ _, Returns (VPromise 20 true (VBool false))) ]}).
Local Abbreviation rejecting :=
  (mkPlugin (Args := Z) "rejecting" None None
     {[ "onComplete" := VFun (λ _, Returns (VPromise 7 false (VStr "Async error"))) ]}).
Local Abbreviation fast :=
  (mkPlugin (Args := Z) "fast" None None
     {[ "onComplete" := VFun (λ _, Returns (VPromise 5 true (VBool true))) ]}).


(** C9, as amended, on the registry with a cached [onInit]: removing a name
    that is not registered leaves the cached array in place. *)
Lemma invalidation_rules_witness :
  ∃ cached,
    hookCache (history [InPlugin init_plugin] [OpGetPluginsWithHook "onInit"])
      !! "onInit" = Some cached
    ∧ getPluginsWithHook "onInit"
        (final_state
           (remove "nonexistent"
              (history [InPlugin init_plugin] [OpGetPluginsWithHook "onInit"])))
      = Normal cached
          (history [InPlugin init_plugin] [OpGetPluginsWithHook "onInit"]).
Proof.
  destruct (invalidation_rules (Args := Z)
              (history [InPlugin init_plugin] [OpGetPluginsWithHook "onInit"]))
    as (_ & Habsent & _).
  assert ("nonexistent" ∉ name <$>
            plugins (history [InPlugin init_plugin] [OpGetPluginsWithHook "onInit"]))
    as Hnot.
  { vm_compute. intros Hin. inversion Hin as [|? ? ? Hin']; inversion Hin'. }
  destruct (Habsent "nonexistent" Hnot) as (_ & Hcached).
  eexists. split; [vm_compute; reflexivity|].
  apply Hcached. vm_compute. reflexivity.
Defined.

(** * The further properties on concrete objects *)

(** X1, on the plugins of the priority test: the second call skips [low]
    as the one call does. *)
Lemma use_composes_witness :
  (use [InPlugin low];; use [InPlugin high; InPlugin low]) fresh_state
  = use [InPlugin low; InPlugin high; InPlugin low] fresh_state.
Proof.
  apply (use_composes (Args := Z) [InPlugin low] [InPlugin high; InPlugin low]
           fresh_state).
  simpl. repeat constructor.
Defined.

(** X2, on a plugin, an array and a factory. *)
Lemma use_flattens_witness :
  use [InPlugin low; InArray [high; none]; InFactory (λ _, FPlugin x1)] fresh_state
  = use [InArray [low; high; none; x1]] fresh_state.
Proof.
  assert (Forall (λ input, factory_throws (Args := Z) input = None)
            [InPlugin low; InArray [high; none]; InFactory (λ _, FPlugin x1)])
    as Hall by (repeat constructor).
  destruct (use_flattens (Args := Z) _ fresh_state Hall) as [Huse _].
  exact Huse.
Defined.

(** X4, on the plugins of the priority test. *)
Lemma use_then_remove_witness :
  plugins (final_state
             (remove "high"
                (final_state (use [InPlugin high] (history [InPlugin low] [])))))
  = [low].
Proof.
  assert (name high ∉ name <$> plugins (history [InPlugin low] [])) as Hfresh.
  { vm_compute. intros Hin. inversion Hin as [|? ? ? Hin']; inversion Hin'. }
  etrans; [apply (use_then_remove (Args := Z) high _ Hfresh)|].
  vm_compute. reflexivity.
Defined.

(** X7, on the three plugins for [onInit]: after [exec], which calls
    [declines] first, [getPlugins] returns them as they were registered. *)
Lemma dispatch_keeps_registration_order_witness :
  plugins (perform (OpExec "onInit" 7)
             (history [InPlugin zero; InPlugin late; InPlugin declines] []))
  = [zero; late; declines].
Proof.
  destruct (dispatch_keeps_registration_order (Args := Z)
              [InPlugin zero; InPlugin late; InPlugin declines] []
              (OpExec "onInit" 7) eq_refl)
    as (Hplugins & _).
  etrans; [exact Hplugins|]. vm_compute. reflexivity.
Defined.

(** X8, on the plugin with [onInit] only: [exec] of [onProcess] returns
    [null] and writes nothing. *)
Lemma no_plugin_with_hook_witness :
  ∃ s1,
    exec "onProcess" 7 (history [InPlugin init_plugin] []) = Normal VNull s1
    ∧ execAll "onProcess" 7 (history [InPlugin init_plugin] []) = Normal [] s1
    ∧ console s1 = [].
Proof.
  assert (plugins (history [InPlugin init_plugin] []) = [init_plugin]) as Hplugins
    by (vm_compute; reflexivity).
  assert (Forall (λ p, has_hook "onProcess" p = false)
            (plugins (history [InPlugin init_plugin] []))) as Hnone.
  { rewrite Hplugins. constructor; [vm_compute; reflexivity|constructor]. }
  destruct (no_plugin_with_hook (Args := Z) [InPlugin init_plugin] [] "onProcess" 7
              Hnone)
    as (s1 & Hconsole & _ & _ & Hexec & _ & HexecAll & _).
  exists s1. split; [exact Hexec|]. split; [exact HexecAll|].
  rewrite Hconsole. vm_compute. reflexivity.
Defined.

(** X9, on the three plugins for [onInit], with [onInit] in the cache:
    after [remove], the resolver does not return [declines]. *)
Lemma removed_plugin_is_never_called_witness :
  "declines" ∉ name <$>
    returned_items
      (getPluginsWithHook "onInit"
         (final_state
            (remove "declines"
               (history [InPlugin zero; InPlugin late; InPlugin declines]
                        [OpGetPluginsWithHook "onInit"])))).
Proof.
  destruct (removed_plugin_is_never_called (Args := Z)
              [InPlugin zero; InPlugin late; InPlugin declines]
              [OpGetPluginsWithHook "onInit"] "declines" (OpExec "onInit" 7) "onInit"
              eq_refl)
    as [Hgone _].
  exact Hgone.
Defined.

(** X13, on the three plugins for [onInit], none of which returns a
    promise or a thenable. *)
Lemma async_agrees_with_sync_witness :
  execAsync "onInit" 7 (history [InPlugin zero; InPlugin late; InPlugin declines] [])
  = exec "onInit" 7 (history [InPlugin zero; InPlugin late; InPlugin declines] []).
Proof.
  assert (plugins (history [InPlugin zero; InPlugin late; InPlugin declines] [])
          = [zero; late; declines]) as Hplugins by (vm_compute; reflexivity).
  assert (Forall (λ p, returns_thenable "onInit" 7 p = false)
            (plugins (history [InPlugin zero; InPlugin late; InPlugin declines] [])))
    as Hall.
  { rewrite Hplugins. repeat (constructor; [vm_compute; reflexivity|]). constructor. }
  destruct (async_agrees_with_sync (Args := Z)
              [InPlugin zero; InPlugin late; InPlugin declines] [] "onInit" 7 Hall)
    as [Hsame _].
  exact Hsame.
Defined.

(** X17, with [onInit] in the cache: [late] comes behind [zero]. *)
Lemma accepted_plugin_is_resolved_witness :
  filter (λ p, priority_or_0 p = priority_or_0 late)
    (returned_items
       (getPluginsWithHook "onInit"
          (final_state
             (use [InPlugin late]
                (history [InPlugin zero] [OpGetPluginsWithHook "onInit"])))))
  = filter (λ p, priority_or_0 p = priority_or_0 late)
      (returned_items
         (getPluginsWithHook "onInit"
            (history [InPlugin zero] [OpGetPluginsWithHook "onInit"])))
    ++ [late].
Proof.
  assert (name late ∉ name <$>
            plugins (history [InPlugin zero] [OpGetPluginsWithHook "onInit"]))
    as Hfresh.
  { vm_compute. intros Hin. inversion Hin as [|? ? ? Hin']; inversion Hin'. }
  assert (has_hook "onInit" late = true) as Hhook by (vm_compute; reflexivity).
  destruct (accepted_plugin_is_resolved (Args := Z)
              [InPlugin zero] [OpGetPluginsWithHook "onInit"] late "onInit"
              Hfresh Hhook)
    as [_ Hlast].
  exact Hlast.
Defined.

(** [{ name: 'shadowed', onInit: 5, hooks: { onInit: (value) => value } }] *)
Local Abbreviation shadowed :=
  (mkPlugin (Args := Z) "shadowed" None
     (Some (VObj {[ "onInit" := VFun (λ v, Returns (VNum v)) ]}))
     {[ "onInit" := VNum 5 ]}).


(** [{ name: 'ranked', priority: 3, hooks: { priority: (value) => value } }] *)
Local Abbreviation ranked :=
  (mkPlugin (Args := Z) "ranked" (Some 3)
     (Some (VObj {[ "priority" := VFun (λ v, Returns (VNum v)) ]})) ∅).

